(** * Citra front end: touch mapping and the free-camera hack

    A shallow embedding of
      - [src/common/string_util.cpp]   (the gl-matrix routines [mat4_*]), and
      - [src/core/frontend/emu_window.cpp] (touch handling, [UpdateCameraHack]),
    together with the properties of the written specification that concern
    them.

    Number model.  [unsigned] values are integers in [Z] with the 32-bit
    wrap-around of every addition and subtraction written out.  [float] and
    [double] values are modelled by exact rationals [Q]: rounding, infinities
    and NaN are outside the model, and equality of results is [Qeq] ([==]).
    Where rounding decides a property, the routine is modelled a second time
    in module [Double], on IEEE 754 binary64 values with the operations of
    the source in the order of the source.

    Effects.  Every routine is a function from the state it reads to the
    state it leaves: the matrix routines return the contents of the buffer
    they write, the window's member functions return the window afterwards.
    Calls are taken one at a time, so the mutex around [TouchState] has no
    counterpart here. *)

From Stdlib Require Import ZArith QArith Qabs Qminmax Bool List Lia Lqa.
From Stdlib Require Import Ascii.
From Stdlib Require String.
From Stdlib Require Floats.
Import ListNotations.

Local Open Scope Q_scope.

(** ** Comparisons of the C++ code on rationals *)

(** [a < b] as a test. *)
Definition Qltb (a b : Q) : bool := negb (Qle_bool b a).

(** [std::max] and [std::min] as the standard library defines them:
    [max(a,b) = (a < b) ? b : a] and [min(a,b) = (b < a) ? b : a]. *)
Definition std_max (a b : Q) : Q := if Qltb a b then b else a.
Definition std_min (a b : Q) : Q := if Qltb b a then b else a.

Module Common.

(** ** [mat4_t]: sixteen doubles, column-major *)

Record mat4 : Type := Mat4 {
  m0 : Q; m1 : Q; m2 : Q; m3 : Q;
  m4 : Q; m5 : Q; m6 : Q; m7 : Q;
  m8 : Q; m9 : Q; m10 : Q; m11 : Q;
  m12 : Q; m13 : Q; m14 : Q; m15 : Q
}.

(** Three doubles: [double*] arguments [v] and [Vec3]. *)
Record vec3 : Type := Vec3 { vx : Q; vy : Q; vz : Q }.

(** Element-wise equality of two matrices. *)
Definition mat4_eq (a b : mat4) : Prop :=
  m0 a == m0 b /\ m1 a == m1 b /\ m2 a == m2 b /\ m3 a == m3 b /\
  m4 a == m4 b /\ m5 a == m5 b /\ m6 a == m6 b /\ m7 a == m7 b /\
  m8 a == m8 b /\ m9 a == m9 b /\ m10 a == m10 b /\ m11 a == m11 b /\
  m12 a == m12 b /\ m13 a == m13 b /\ m14 a == m14 b /\ m15 a == m15 b.

(** Two matrices agree to within [eps] in every element. *)
Definition mat4_close (eps : Q) (a b : mat4) : Prop :=
  Qabs (m0 a - m0 b) <= eps /\ Qabs (m1 a - m1 b) <= eps /\
  Qabs (m2 a - m2 b) <= eps /\ Qabs (m3 a - m3 b) <= eps /\
  Qabs (m4 a - m4 b) <= eps /\ Qabs (m5 a - m5 b) <= eps /\
  Qabs (m6 a - m6 b) <= eps /\ Qabs (m7 a - m7 b) <= eps /\
  Qabs (m8 a - m8 b) <= eps /\ Qabs (m9 a - m9 b) <= eps /\
  Qabs (m10 a - m10 b) <= eps /\ Qabs (m11 a - m11 b) <= eps /\
  Qabs (m12 a - m12 b) <= eps /\ Qabs (m13 a - m13 b) <= eps /\
  Qabs (m14 a - m14 b) <= eps /\ Qabs (m15 a - m15 b) <= eps.

(** [mat4_identity(dest)]. *)
Definition mat4_identity : mat4 :=
  Mat4 1 0 0 0
       0 1 0 0
       0 0 1 0
       0 0 0 1.

(** [mat4_inverse(dest, mat)].  Every element of [mat] is cached before the
    first write, so aliasing [dest] and [mat] does not matter and the routine
    is a function of [mat].  [None] is the [NULL] return: [dest] is then left
    as it was. *)
Definition mat4_inverse (mat : mat4) : option mat4 :=
  let a00 := m0 mat in let a01 := m1 mat in let a02 := m2 mat in
  let a03 := m3 mat in let a10 := m4 mat in let a11 := m5 mat in
  let a12 := m6 mat in let a13 := m7 mat in let a20 := m8 mat in
  let a21 := m9 mat in let a22 := m10 mat in let a23 := m11 mat in
  let a30 := m12 mat in let a31 := m13 mat in let a32 := m14 mat in
  let a33 := m15 mat in
  let b00 := a00 * a11 - a01 * a10 in
  let b01 := a00 * a12 - a02 * a10 in
  let b02 := a00 * a13 - a03 * a10 in
  let b03 := a01 * a12 - a02 * a11 in
  let b04 := a01 * a13 - a03 * a11 in
  let b05 := a02 * a13 - a03 * a12 in
  let b06 := a20 * a31 - a21 * a30 in
  let b07 := a20 * a32 - a22 * a30 in
  let b08 := a20 * a33 - a23 * a30 in
  let b09 := a21 * a32 - a22 * a31 in
  let b10 := a21 * a33 - a23 * a31 in
  let b11 := a22 * a33 - a23 * a32 in
  let d := b00 * b11 - b01 * b10 + b02 * b09 + b03 * b08 - b04 * b07
           + b05 * b06 in
  if Qeq_bool d 0 then None
  else
    let invDet := 1 / d in
    Some (Mat4
      ((a11 * b11 - a12 * b10 + a13 * b09) * invDet)
      ((- a01 * b11 + a02 * b10 - a03 * b09) * invDet)
      ((a31 * b05 - a32 * b04 + a33 * b03) * invDet)
      ((- a21 * b05 + a22 * b04 - a23 * b03) * invDet)
      ((- a10 * b11 + a12 * b08 - a13 * b07) * invDet)
      ((a00 * b11 - a02 * b08 + a03 * b07) * invDet)
      ((- a30 * b05 + a32 * b02 - a33 * b01) * invDet)
      ((a20 * b05 - a22 * b02 + a23 * b01) * invDet)
      ((a10 * b10 - a11 * b08 + a13 * b06) * invDet)
      ((- a00 * b10 + a01 * b08 - a03 * b06) * invDet)
      ((a30 * b04 - a31 * b02 + a33 * b00) * invDet)
      ((- a20 * b04 + a21 * b02 - a23 * b00) * invDet)
      ((- a10 * b09 + a11 * b07 - a12 * b06) * invDet)
      ((a00 * b09 - a01 * b07 + a02 * b06) * invDet)
      ((- a30 * b03 + a31 * b01 - a32 * b00) * invDet)
      ((a20 * b03 - a21 * b01 + a22 * b00) * invDet)).

(** [mat4_translate(dest, mat, v)].  Both branches of the source (in place, and
    into a different [dest] with the first twelve elements copied) leave the
    same sixteen values in the matrix they return. *)
Definition mat4_translate (mat : mat4) (v : vec3) : mat4 :=
  let x := vx v in let y := vy v in let z := vz v in
  Mat4 (m0 mat) (m1 mat) (m2 mat) (m3 mat)
       (m4 mat) (m5 mat) (m6 mat) (m7 mat)
       (m8 mat) (m9 mat) (m10 mat) (m11 mat)
       (m0 mat * x + m4 mat * y + m8 mat * z + m12 mat)
       (m1 mat * x + m5 mat * y + m9 mat * z + m13 mat)
       (m2 mat * x + m6 mat * y + m10 mat * z + m14 mat)
       (m3 mat * x + m7 mat * y + m11 mat * z + m15 mat).

(** [mat4_multiply(dest, mat, mat2)]; all thirty-two inputs are cached before
    the first write. *)
Definition mat4_multiply (mat mat2 : mat4) : mat4 :=
  let a00 := m0 mat in let a01 := m1 mat in let a02 := m2 mat in
  let a03 := m3 mat in let a10 := m4 mat in let a11 := m5 mat in
  let a12 := m6 mat in let a13 := m7 mat in let a20 := m8 mat in
  let a21 := m9 mat in let a22 := m10 mat in let a23 := m11 mat in
  let a30 := m12 mat in let a31 := m13 mat in let a32 := m14 mat in
  let a33 := m15 mat in
  let b00 := m0 mat2 in let b01 := m1 mat2 in let b02 := m2 mat2 in
  let b03 := m3 mat2 in let b10 := m4 mat2 in let b11 := m5 mat2 in
  let b12 := m6 mat2 in let b13 := m7 mat2 in let b20 := m8 mat2 in
  let b21 := m9 mat2 in let b22 := m10 mat2 in let b23 := m11 mat2 in
  let b30 := m12 mat2 in let b31 := m13 mat2 in let b32 := m14 mat2 in
  let b33 := m15 mat2 in
  Mat4 (b00 * a00 + b01 * a10 + b02 * a20 + b03 * a30)
       (b00 * a01 + b01 * a11 + b02 * a21 + b03 * a31)
       (b00 * a02 + b01 * a12 + b02 * a22 + b03 * a32)
       (b00 * a03 + b01 * a13 + b02 * a23 + b03 * a33)
       (b10 * a00 + b11 * a10 + b12 * a20 + b13 * a30)
       (b10 * a01 + b11 * a11 + b12 * a21 + b13 * a31)
       (b10 * a02 + b11 * a12 + b12 * a22 + b13 * a32)
       (b10 * a03 + b11 * a13 + b12 * a23 + b13 * a33)
       (b20 * a00 + b21 * a10 + b22 * a20 + b23 * a30)
       (b20 * a01 + b21 * a11 + b22 * a21 + b23 * a31)
       (b20 * a02 + b21 * a12 + b22 * a22 + b23 * a32)
       (b20 * a03 + b21 * a13 + b22 * a23 + b23 * a33)
       (b30 * a00 + b31 * a10 + b32 * a20 + b33 * a30)
       (b30 * a01 + b31 * a11 + b32 * a21 + b33 * a31)
       (b30 * a02 + b31 * a12 + b32 * a22 + b33 * a32)
       (b30 * a03 + b31 * a13 + b32 * a23 + b33 * a33).

(** [mat4_rotate(dest, mat, angle, v)] called with [dest == mat], as
    [UpdateCameraHack] calls it: elements 12..15 stay as they are.  [None] is
    the [NULL] return for an axis of length zero, with nothing written.
    [sqrt], [sin] and [cos] are the C library's; they are taken as
    parameters. *)
Section Rotate.
Variables sqrt sin cos : Q -> Q.

Definition mat4_rotate (mat : mat4) (angle : Q) (v : vec3) : option mat4 :=
  let x := vx v in let y := vy v in let z := vz v in
  let len := sqrt (x * x + y * y + z * z) in
  if Qeq_bool len 0 then None
  else
    let '(x, y, z) :=
      if negb (Qeq_bool len 1)
      then let len := 1 / len in (x * len, y * len, z * len)
      else (x, y, z) in
    let s := sin angle in
    let c := cos angle in
    let t := 1 - c in
    let a00 := m0 mat in let a01 := m1 mat in let a02 := m2 mat in
    let a03 := m3 mat in let a10 := m4 mat in let a11 := m5 mat in
    let a12 := m6 mat in let a13 := m7 mat in let a20 := m8 mat in
    let a21 := m9 mat in let a22 := m10 mat in let a23 := m11 mat in
    let b00 := x * x * t + c in
    let b01 := y * x * t + z * s in
    let b02 := z * x * t - y * s in
    let b10 := x * y * t - z * s in
    let b11 := y * y * t + c in
    let b12 := z * y * t + x * s in
    let b20 := x * z * t + y * s in
    let b21 := y * z * t - x * s in
    let b22 := z * z * t + c in
    Some (Mat4
      (a00 * b00 + a10 * b01 + a20 * b02)
      (a01 * b00 + a11 * b01 + a21 * b02)
      (a02 * b00 + a12 * b01 + a22 * b02)
      (a03 * b00 + a13 * b01 + a23 * b02)
      (a00 * b10 + a10 * b11 + a20 * b12)
      (a01 * b10 + a11 * b11 + a21 * b12)
      (a02 * b10 + a12 * b11 + a22 * b12)
      (a03 * b10 + a13 * b11 + a23 * b12)
      (a00 * b20 + a10 * b21 + a20 * b22)
      (a01 * b20 + a11 * b21 + a21 * b22)
      (a02 * b20 + a12 * b21 + a22 * b22)
      (a03 * b20 + a13 * b21 + a23 * b22)
      (m12 mat) (m13 mat) (m14 mat) (m15 mat)).

End Rotate.

(** The determinant as linear algebra defines it: Laplace expansion along the
    first column ([m0 .. m3]) with 3x3 minors.  It is compared below with the
    value [d] that [mat4_inverse] tests. *)
Definition det3 (a b c d e f g h i : Q) : Q :=
  a * (e * i - f * h) - b * (d * i - f * g) + c * (d * h - e * g).

Definition det4 (mat : mat4) : Q :=
    m0 mat * det3 (m5 mat) (m6 mat) (m7 mat)
                  (m9 mat) (m10 mat) (m11 mat)
                  (m13 mat) (m14 mat) (m15 mat)
  - m1 mat * det3 (m4 mat) (m6 mat) (m7 mat)
                  (m8 mat) (m10 mat) (m11 mat)
                  (m12 mat) (m14 mat) (m15 mat)
  + m2 mat * det3 (m4 mat) (m5 mat) (m7 mat)
                  (m8 mat) (m9 mat) (m11 mat)
                  (m12 mat) (m13 mat) (m15 mat)
  - m3 mat * det3 (m4 mat) (m5 mat) (m6 mat)
                  (m8 mat) (m9 mat) (m10 mat)
                  (m12 mat) (m13 mat) (m14 mat).

(** The value [d] of [mat4_inverse]. *)
Definition inverse_d (mat : mat4) : Q :=
  let a00 := m0 mat in let a01 := m1 mat in let a02 := m2 mat in
  let a03 := m3 mat in let a10 := m4 mat in let a11 := m5 mat in
  let a12 := m6 mat in let a13 := m7 mat in let a20 := m8 mat in
  let a21 := m9 mat in let a22 := m10 mat in let a23 := m11 mat in
  let a30 := m12 mat in let a31 := m13 mat in let a32 := m14 mat in
  let a33 := m15 mat in
  let b00 := a00 * a11 - a01 * a10 in
  let b01 := a00 * a12 - a02 * a10 in
  let b02 := a00 * a13 - a03 * a10 in
  let b03 := a01 * a12 - a02 * a11 in
  let b04 := a01 * a13 - a03 * a11 in
  let b05 := a02 * a13 - a03 * a12 in
  let b06 := a20 * a31 - a21 * a30 in
  let b07 := a20 * a32 - a22 * a30 in
  let b08 := a20 * a33 - a23 * a30 in
  let b09 := a21 * a32 - a22 * a31 in
  let b10 := a21 * a33 - a23 * a31 in
  let b11 := a22 * a33 - a23 * a32 in
  b00 * b11 - b01 * b10 + b02 * b09 + b03 * b08 - b04 * b07 + b05 * b06.

End Common.

(** ** The matrix routines on doubles *)

Module Double.

Import Floats.

Local Open Scope float_scope.

(** [mat4_t] with its sixteen doubles. *)
Record mat4 : Type := Mat4 {
  m0 : float; m1 : float; m2 : float; m3 : float;
  m4 : float; m5 : float; m6 : float; m7 : float;
  m8 : float; m9 : float; m10 : float; m11 : float;
  m12 : float; m13 : float; m14 : float; m15 : float
}.

(** [mat4_identity(dest)]. *)
Definition mat4_identity : mat4 :=
  Mat4 1 0 0 0
       0 1 0 0
       0 0 1 0
       0 0 0 1.

(** [mat4_inverse(dest, mat)] with every product, sum and the one division
    rounded to a double on its own, in the order the source writes them;
    [!d] is [d == 0.0], true of both zeros and of no NaN.  [None] is the
    [NULL] return. *)
Definition mat4_inverse (mat : mat4) : option mat4 :=
  let a00 := m0 mat in let a01 := m1 mat in let a02 := m2 mat in
  let a03 := m3 mat in let a10 := m4 mat in let a11 := m5 mat in
  let a12 := m6 mat in let a13 := m7 mat in let a20 := m8 mat in
  let a21 := m9 mat in let a22 := m10 mat in let a23 := m11 mat in
  let a30 := m12 mat in let a31 := m13 mat in let a32 := m14 mat in
  let a33 := m15 mat in
  let b00 := a00 * a11 - a01 * a10 in
  let b01 := a00 * a12 - a02 * a10 in
  let b02 := a00 * a13 - a03 * a10 in
  let b03 := a01 * a12 - a02 * a11 in
  let b04 := a01 * a13 - a03 * a11 in
  let b05 := a02 * a13 - a03 * a12 in
  let b06 := a20 * a31 - a21 * a30 in
  let b07 := a20 * a32 - a22 * a30 in
  let b08 := a20 * a33 - a23 * a30 in
  let b09 := a21 * a32 - a22 * a31 in
  let b10 := a21 * a33 - a23 * a31 in
  let b11 := a22 * a33 - a23 * a32 in
  let d := b00 * b11 - b01 * b10 + b02 * b09 + b03 * b08 - b04 * b07
           + b05 * b06 in
  if d =? 0 then None
  else
    let invDet := 1 / d in
    Some (Mat4
      ((a11 * b11 - a12 * b10 + a13 * b09) * invDet)
      (((- a01) * b11 + a02 * b10 - a03 * b09) * invDet)
      ((a31 * b05 - a32 * b04 + a33 * b03) * invDet)
      (((- a21) * b05 + a22 * b04 - a23 * b03) * invDet)
      (((- a10) * b11 + a12 * b08 - a13 * b07) * invDet)
      ((a00 * b11 - a02 * b08 + a03 * b07) * invDet)
      (((- a30) * b05 + a32 * b02 - a33 * b01) * invDet)
      ((a20 * b05 - a22 * b02 + a23 * b01) * invDet)
      ((a10 * b10 - a11 * b08 + a13 * b06) * invDet)
      (((- a00) * b10 + a01 * b08 - a03 * b06) * invDet)
      ((a30 * b04 - a31 * b02 + a33 * b00) * invDet)
      (((- a20) * b04 + a21 * b02 - a23 * b00) * invDet)
      (((- a10) * b09 + a11 * b07 - a12 * b06) * invDet)
      ((a00 * b09 - a01 * b07 + a02 * b06) * invDet)
      (((- a30) * b03 + a31 * b01 - a32 * b00) * invDet)
      ((a20 * b03 - a21 * b01 + a22 * b00) * invDet)).

(** [mat4_multiply(dest, mat, mat2)] in doubles. *)
Definition mat4_multiply (mat mat2 : mat4) : mat4 :=
  let a00 := m0 mat in let a01 := m1 mat in let a02 := m2 mat in
  let a03 := m3 mat in let a10 := m4 mat in let a11 := m5 mat in
  let a12 := m6 mat in let a13 := m7 mat in let a20 := m8 mat in
  let a21 := m9 mat in let a22 := m10 mat in let a23 := m11 mat in
  let a30 := m12 mat in let a31 := m13 mat in let a32 := m14 mat in
  let a33 := m15 mat in
  let b00 := m0 mat2 in let b01 := m1 mat2 in let b02 := m2 mat2 in
  let b03 := m3 mat2 in let b10 := m4 mat2 in let b11 := m5 mat2 in
  let b12 := m6 mat2 in let b13 := m7 mat2 in let b20 := m8 mat2 in
  let b21 := m9 mat2 in let b22 := m10 mat2 in let b23 := m11 mat2 in
  let b30 := m12 mat2 in let b31 := m13 mat2 in let b32 := m14 mat2 in
  let b33 := m15 mat2 in
  Mat4 (b00 * a00 + b01 * a10 + b02 * a20 + b03 * a30)
       (b00 * a01 + b01 * a11 + b02 * a21 + b03 * a31)
       (b00 * a02 + b01 * a12 + b02 * a22 + b03 * a32)
       (b00 * a03 + b01 * a13 + b02 * a23 + b03 * a33)
       (b10 * a00 + b11 * a10 + b12 * a20 + b13 * a30)
       (b10 * a01 + b11 * a11 + b12 * a21 + b13 * a31)
       (b10 * a02 + b11 * a12 + b12 * a22 + b13 * a32)
       (b10 * a03 + b11 * a13 + b12 * a23 + b13 * a33)
       (b20 * a00 + b21 * a10 + b22 * a20 + b23 * a30)
       (b20 * a01 + b21 * a11 + b22 * a21 + b23 * a31)
       (b20 * a02 + b21 * a12 + b22 * a22 + b23 * a32)
       (b20 * a03 + b21 * a13 + b22 * a23 + b23 * a33)
       (b30 * a00 + b31 * a10 + b32 * a20 + b33 * a30)
       (b30 * a01 + b31 * a11 + b32 * a21 + b33 * a31)
       (b30 * a02 + b31 * a12 + b32 * a22 + b33 * a32)
       (b30 * a03 + b31 * a13 + b32 * a23 + b33 * a33).

(** The rational number a finite double stands for. *)
Definition exact (f : float) : option Q :=
  match Prim2SF f with
  | S754_zero _ => Some 0%Q
  | S754_finite negative m e =>
      Some ((if negative then - inject_Z (Zpos m) else inject_Z (Zpos m))
            * 2 ^ e)%Q
  | S754_infinity _ => None
  | S754_nan => None
  end.

(** The matrix of rationals a matrix of finite doubles stands for. *)
Definition exact_mat4 (mat : mat4) : option Common.mat4 :=
  match exact (m0 mat), exact (m1 mat), exact (m2 mat), exact (m3 mat) with
  | Some e0, Some e1, Some e2, Some e3 =>
  match exact (m4 mat), exact (m5 mat), exact (m6 mat), exact (m7 mat) with
  | Some e4, Some e5, Some e6, Some e7 =>
  match exact (m8 mat), exact (m9 mat), exact (m10 mat), exact (m11 mat) with
  | Some e8, Some e9, Some e10, Some e11 =>
  match exact (m12 mat), exact (m13 mat), exact (m14 mat), exact (m15 mat) with
  | Some e12, Some e13, Some e14, Some e15 =>
      Some (Common.Mat4 e0 e1 e2 e3 e4 e5 e6 e7 e8 e9 e10 e11 e12 e13 e14 e15)
  | _, _, _, _ => None
  end
  | _, _, _, _ => None
  end
  | _, _, _, _ => None
  end
  | _, _, _, _ => None
  end.

End Double.

(** ** 32-bit unsigned arithmetic *)

Module U32.

Definition modulus : Z := 2 ^ 32.

(** Reduction of an integer to an [unsigned]. *)
Definition wrap (z : Z) : Z := z mod modulus.

Definition add (a b : Z) : Z := wrap (a + b).
Definition sub (a b : Z) : Z := wrap (a - b).

(** A value an [unsigned] variable can hold. *)
Definition in_range (z : Z) : Prop := (0 <= z < modulus)%Z.

(** Conversion of an [unsigned] to [float]. *)
Definition to_float (z : Z) : Q := inject_Z z.

End U32.

(** ** Settings and layout, as the front end reads them *)

Module Settings.

(** Modelled from the spec: [Settings::StereoRenderOption] is declared in
    core/settings.h, which is not among the sources; the spec's data model
    gives the variants Off, SideBySide and CardboardVR. *)
Inductive StereoRenderOption : Type := Off | SideBySide | CardboardVR.

End Settings.

Module Layout.

(** [Common::Rectangle<unsigned>]. *)
Record Rectangle : Type := MkRectangle {
  left : Z; top : Z; right : Z; bottom : Z
}.

(** Modelled from the spec: [Rectangle::GetWidth] is declared in
    common/math_util.h, which is not among the sources; the spec speaks of
    "the same width as bottom_screen", that is right minus left. *)
Definition GetWidth (r : Rectangle) : Z := U32.sub (right r) (left r).

(** The [cardboard] sub-record; [user_x_shift] is a signed [int]. *)
Record CardboardSettings : Type := MkCardboard {
  bottom_screen_right_eye : Z;
  user_x_shift : Z
}.

Record FramebufferLayout : Type := MkLayout {
  width : Z;
  top_screen : Rectangle;
  bottom_screen : Rectangle;
  is_rotated : bool;
  cardboard : CardboardSettings
}.

Definition rect_in_range (r : Rectangle) : Prop :=
  U32.in_range (left r) /\ U32.in_range (top r) /\
  U32.in_range (right r) /\ U32.in_range (bottom r).

(** Every [unsigned] field of the layout holds an [unsigned]. *)
Definition in_range (l : FramebufferLayout) : Prop :=
  U32.in_range (width l) /\ rect_in_range (top_screen l) /\
  rect_in_range (bottom_screen l) /\
  U32.in_range (bottom_screen_right_eye (cardboard l)).

End Layout.

Module VideoCore.

(** [VideoCore::RenderHacksInput], the argument of [SetRenderHacks]. *)
Record RenderHacksInput : Type := MkRenderHacksInput {
  view_matrix : Common.mat4;
  disable_fog : bool
}.

End VideoCore.

Module Frontend.

Import Settings Layout.

(** ** State of an [EmuWindow] *)

Record TouchState : Type := MkTouchState {
  touch_pressed : bool;
  touch_x : Q;
  touch_y : Q
}.

Record CameraHackState : Type := MkCameraHackState {
  grabbed : bool;
  lastX : Q; lastY : Q;
  tx : Q; ty : Q
}.

(** [mouseMovement] has the two elements the spec's data model gives it. *)
Record FpsCameraController : Type := MkFpsCameraController {
  worldMatrix : Common.mat4;
  keyMovement : Common.vec3;
  mouseMovement : Q * Q
}.

Record EmuWindow : Type := MkEmuWindow {
  framebuffer_layout : FramebufferLayout;
  touch_state : TouchState;
  camera_hack_state : CameraHackState;
  fps_camera_controller : FpsCameraController;
  fog_disabled : bool
}.

Definition set_touch_state (w : EmuWindow) (t : TouchState) : EmuWindow :=
  MkEmuWindow (framebuffer_layout w) t (camera_hack_state w)
              (fps_camera_controller w) (fog_disabled w).

Definition set_camera_hack_state (w : EmuWindow) (c : CameraHackState)
  : EmuWindow :=
  MkEmuWindow (framebuffer_layout w) (touch_state w) c
              (fps_camera_controller w) (fog_disabled w).

Definition set_fps_camera_controller (w : EmuWindow) (f : FpsCameraController)
  : EmuWindow :=
  MkEmuWindow (framebuffer_layout w) (touch_state w) (camera_hack_state w)
              f (fog_disabled w).

(** ** Coordinate mapping *)

(** [IsWithinTopScreen]: [Some (norm_x, norm_y)] is a hit, with the two values
    written through the pointers; [None] is a miss, with nothing written. *)
Definition IsWithinTopScreen (layout : FramebufferLayout) (fbx fby : Z)
  : option (Q * Q) :=
  if ((left (top_screen layout) <=? fbx) && (fbx <? right (top_screen layout))
      && (top (top_screen layout) <=? fby)
      && (fby <? bottom (top_screen layout)))%Z
  then Some (U32.to_float (U32.sub fbx (left (top_screen layout))),
             U32.to_float (U32.sub fby (top (top_screen layout))))
  else None.

Definition IsWithinTouchscreen (render_3d : StereoRenderOption)
  (layout : FramebufferLayout) (framebuffer_x framebuffer_y : Z) : bool :=
  let bs := bottom_screen layout in
  match render_3d with
  | SideBySide =>
      ((top bs <=? framebuffer_y) && (framebuffer_y <? bottom bs) &&
       (((left bs / 2 <=? framebuffer_x) && (framebuffer_x <? right bs / 2)) ||
        ((U32.add (left bs / 2) (width layout / 2) <=? framebuffer_x) &&
         (framebuffer_x <? U32.add (right bs / 2) (width layout / 2)))))%Z
  | CardboardVR =>
      ((top bs <=? framebuffer_y) && (framebuffer_y <? bottom bs) &&
       (((left bs <=? framebuffer_x) && (framebuffer_x <? right bs)) ||
        ((U32.add (bottom_screen_right_eye (cardboard layout))
                  (width layout / 2) <=? framebuffer_x) &&
         (framebuffer_x <?
            U32.add (U32.add (bottom_screen_right_eye (cardboard layout))
                             (GetWidth bs))
                    (width layout / 2)))))%Z
  | Off =>
      ((top bs <=? framebuffer_y) && (framebuffer_y <? bottom bs) &&
       (left bs <=? framebuffer_x) && (framebuffer_x <? right bs))%Z
  end.

(** The correction both [ClipToTouchScreen] and [TouchPressed] apply to a
    pixel of the right half: [x -= width / 2] under SideBySide and
    [x -= width / 2 - user_x_shift * 2] under CardboardVR. *)
Definition undo_stereo_offset (render_3d : StereoRenderOption)
  (layout : FramebufferLayout) (x : Z) : Z :=
  if (width layout / 2 <=? x)%Z then
    match render_3d with
    | SideBySide => U32.sub x (width layout / 2)
    | CardboardVR =>
        U32.sub x (U32.sub (width layout / 2)
                           (user_x_shift (cardboard layout) * 2))
    | Off => x
    end
  else x.

Definition ClipToTouchScreen (render_3d : StereoRenderOption)
  (layout : FramebufferLayout) (new_x new_y : Z) : Z * Z :=
  let bs := bottom_screen layout in
  let new_x := undo_stereo_offset render_3d layout new_x in
  let new_x :=
    match render_3d with
    | SideBySide =>
        let new_x := Z.max new_x (left bs / 2) in
        Z.min new_x (U32.sub (right bs / 2) 1)
    | _ =>
        let new_x := Z.max new_x (left bs) in
        Z.min new_x (U32.sub (right bs) 1)
    end in
  let new_y := Z.max new_y (top bs) in
  let new_y := Z.min new_y (U32.sub (bottom bs) 1) in
  (new_x, new_y).

(** ** Touch events *)

(** [TouchPressed].  The result is the window afterwards and the value
    returned: the top-screen branch leaves through a bare [return;], which
    gives the caller no value ([None]). *)
Definition TouchPressed (render_3d : StereoRenderOption) (w : EmuWindow)
  (framebuffer_x framebuffer_y : Z) : EmuWindow * option bool :=
  let layout := framebuffer_layout w in
  match IsWithinTopScreen layout framebuffer_x framebuffer_y with
  | Some (norm_x, norm_y) =>
      (set_camera_hack_state w
         (MkCameraHackState true norm_x norm_y norm_x norm_y), None)
  | None =>
      if negb (IsWithinTouchscreen render_3d layout framebuffer_x framebuffer_y)
      then (w, Some false)
      else
        let bs := bottom_screen layout in
        let framebuffer_x := undo_stereo_offset render_3d layout framebuffer_x in
        let x :=
          match render_3d with
          | SideBySide =>
              U32.to_float (U32.sub framebuffer_x (left bs / 2))
              / U32.to_float (U32.sub (right bs / 2) (left bs / 2))
          | _ =>
              U32.to_float (U32.sub framebuffer_x (left bs))
              / U32.to_float (U32.sub (right bs) (left bs))
          end in
        let y :=
          U32.to_float (U32.sub framebuffer_y (top bs))
          / U32.to_float (U32.sub (bottom bs) (top bs)) in
        let '(x, y) :=
          if negb (is_rotated layout) then (1 - y, x) else (x, y) in
        (set_touch_state w (MkTouchState true x y), Some true)
  end.

Definition TouchReleased (w : EmuWindow) : EmuWindow :=
  if grabbed (camera_hack_state w)
  then
    let c := camera_hack_state w in
    set_camera_hack_state w
      (MkCameraHackState false (lastX c) (lastY c) (tx c) (ty c))
  else set_touch_state w (MkTouchState false 0 0).

(** The pixel [TouchMoved] hands on to [TouchPressed]: the statement
    [if (!IsWithinTouchscreen(..)) std::tie(x, y) = ClipToTouchScreen(x, y);]. *)
Definition clip_if_outside (render_3d : StereoRenderOption)
  (layout : FramebufferLayout) (framebuffer_x framebuffer_y : Z) : Z * Z :=
  if negb (IsWithinTouchscreen render_3d layout framebuffer_x framebuffer_y)
  then ClipToTouchScreen render_3d layout framebuffer_x framebuffer_y
  else (framebuffer_x, framebuffer_y).

Definition TouchMoved (render_3d : StereoRenderOption) (w : EmuWindow)
  (framebuffer_x framebuffer_y : Z) : EmuWindow :=
  let layout := framebuffer_layout w in
  let w :=
    if grabbed (camera_hack_state w) then
      match IsWithinTopScreen layout framebuffer_x framebuffer_y with
      | Some (norm_x, norm_y) =>
          let c := camera_hack_state w in
          set_camera_hack_state w
            (MkCameraHackState (grabbed c) (lastX c) (lastY c) norm_x norm_y)
      | None => w
      end
    else w in
  if negb (touch_pressed (touch_state w)) then w
  else
    let p := clip_if_outside render_3d layout framebuffer_x framebuffer_y in
    fst (TouchPressed render_3d w (fst p) (snd p)).

(** ** The free-camera hack *)

(** The eight keyboard devices polled at the start of a tick, by the name of
    the local that receives [GetStatus()]. *)
Record Buttons : Type := MkButtons {
  keyW : bool; keyA : bool; keyS : bool; keyD : bool;
  isShiftPressed : bool; keyB : bool; keyQ : bool; keyE : bool
}.

Definition clamp (v _min _max : Q) : Q := std_min (std_max v _min) _max.

Definition clampRange (v r : Q) : Q := clamp v (- r) r.

(** [isZero(double* v)] reads [v[0]], [v[1]] and [v[2]]. *)
Definition isZero (v : Common.vec3) : bool :=
  Qeq_bool (Common.vx v) 0 && Qeq_bool (Common.vy v) 0
  && Qeq_bool (Common.vz v) 0.

Definition keyMoveSpeed : Q := 10.
Definition keyMoveShiftMult : Q := 5.
Definition keyMoveVelocityMult : Q := 1 / 5.
Definition keyMoveDrag : Q := 0.8.
Definition keyMoveLowSpeedCap : Q := 0.01.
Definition mouseMoveLowSpeedCap : Q := 0.0001.
Definition mouseLookDrag : Q := 0.

Definition keyMoveSpeedCap (b : Buttons) : Q :=
  let keyMoveMult := if isShiftPressed b then keyMoveShiftMult else 1 in
  keyMoveSpeed * keyMoveMult.

Definition keyMoveVelocity (b : Buttons) : Q :=
  keyMoveSpeedCap b * keyMoveVelocityMult.

(** One of the three [if (key-) .. else if (key+) .. else ..] blocks of
    [UpdateCameraHack]; they differ in the element of [keyMovement] and in
    the two keys only.  [neg] is the key tested first (W, A, Q), [pos] the
    second (S, D, E), [v] the element of [keyMovement]. *)
Definition move_axis (b : Buttons) (neg pos : bool) (v : Q) : Q :=
  if neg then clampRange (v - keyMoveVelocity b) (keyMoveSpeedCap b)
  else if pos then clampRange (v + keyMoveVelocity b) (keyMoveSpeedCap b)
  else
    let v := v * keyMoveDrag in
    if Qltb (Qabs v) keyMoveLowSpeedCap then 0 else v.

(** The local [finalMovement] once its three [+=] lines have run. *)
Definition finalMovement (cameraUp keyMovement : Common.vec3) : Common.vec3 :=
  Common.Vec3
    (Common.vx keyMovement + Common.vx cameraUp * Common.vy keyMovement)
    (0 + Common.vy cameraUp * Common.vy keyMovement)
    (Common.vz keyMovement + Common.vz cameraUp * Common.vy keyMovement).

(** The block [if (!isZero(keyMovement)) { .. }]: [finalMovement] is computed
    and [mat4_translate] is called on [keyMovement]. *)
Definition translate_step (worldMatrix : Common.mat4)
  (cameraUp keyMovement : Common.vec3) : Common.mat4 :=
  if negb (isZero keyMovement) then
    let finalMovement := finalMovement cameraUp keyMovement in
    Common.mat4_translate worldMatrix keyMovement
  else worldMatrix.

Section CameraHack.

(** The C library's [sqrt], [sin] and [cos]. *)
Variables sqrt sin cos : Q -> Q.

(** Modelled from the spec: [Vec3::Normalize] is declared in
    common/vector_math.h, which is not among the sources; the yaw rotation
    is about the normalized up axis, the vector divided by its length. *)
Definition Normalize (v : Common.vec3) : Common.vec3 :=
  let length :=
    sqrt (Common.vx v * Common.vx v + Common.vy v * Common.vy v
          + Common.vz v * Common.vz v) in
  Common.Vec3 (Common.vx v / length) (Common.vy v / length)
              (Common.vz v / length).

(** A call [mat4_rotate(worldMatrix, worldMatrix, angle, axis)] whose result
    is not looked at: on [NULL] the matrix is as before. *)
Definition rotate_in_place (worldMatrix : Common.mat4) (angle : Q)
  (axis : Common.vec3) : Common.mat4 :=
  match Common.mat4_rotate sqrt sin cos worldMatrix angle axis with
  | Some m => m
  | None => worldMatrix
  end.

(** [UpdateCameraHack].  [buttons] is what the eight devices report.
    [input] is the local [VideoCore::RenderHacksInput input;] as its
    declaration leaves it.  [mouseMovement_2] is the double that
    [isZero(mouseMovement)] reads at index 2, one past the two elements of
    [mouseMovement].  The result is the window afterwards and the arguments of
    the calls of [SetRenderHacks], in order. *)
Definition UpdateCameraHack (buttons : Buttons)
  (input : VideoCore.RenderHacksInput) (mouseMovement_2 : Q) (w : EmuWindow)
  : EmuWindow * list VideoCore.RenderHacksInput :=
  let c := camera_hack_state w in
  let mouseDelta0 := tx c - lastX c in
  let mouseDelta1 := ty c - lastY c in
  let c := MkCameraHackState (grabbed c) (tx c) (ty c) (tx c) (ty c) in
  let f := fps_camera_controller w in
  let keyMovement :=
    Common.Vec3
      (move_axis buttons (keyA buttons) (keyD buttons)
                 (Common.vx (keyMovement f)))
      (move_axis buttons (keyQ buttons) (keyE buttons)
                 (Common.vy (keyMovement f)))
      (move_axis buttons (keyW buttons) (keyS buttons)
                 (Common.vz (keyMovement f))) in
  let worldMatrix :=
    if keyB buttons then Common.mat4_identity else worldMatrix f in
  let cameraUp :=
    Common.Vec3 (Common.m1 worldMatrix) (Common.m5 worldMatrix)
                (Common.m9 worldMatrix) in
  let worldMatrix := translate_step worldMatrix cameraUp keyMovement in
  let mouseMovement0 := fst (mouseMovement f) + mouseDelta0 / (- (500)) in
  let mouseMovement1 := snd (mouseMovement f) + mouseDelta1 / (- (500)) in
  let worldMatrix :=
    if negb (isZero (Common.Vec3 mouseMovement0 mouseMovement1
                                 mouseMovement_2))
    then
      let tmp := Normalize cameraUp in
      let worldMatrix := rotate_in_place worldMatrix mouseMovement0 tmp in
      let worldUp := Common.Vec3 1 0 0 in
      rotate_in_place worldMatrix mouseMovement1 worldUp
    else worldMatrix in
  let mouseMovement0 := mouseMovement0 * mouseLookDrag in
  let mouseMovement1 := mouseMovement1 * mouseLookDrag in
  let mouseMovement0 :=
    if Qltb (Qabs mouseMovement0) mouseMoveLowSpeedCap then 0
    else mouseMovement0 in
  let mouseMovement1 :=
    if Qltb (Qabs mouseMovement1) mouseMoveLowSpeedCap then 0
    else mouseMovement1 in
  let input :=
    VideoCore.MkRenderHacksInput
      (match Common.mat4_inverse worldMatrix with
       | Some m => m
       | None => VideoCore.view_matrix input
       end)
      (fog_disabled w) in
  (MkEmuWindow (framebuffer_layout w) (touch_state w) c
     (MkFpsCameraController worldMatrix keyMovement
                            (mouseMovement0, mouseMovement1))
     (fog_disabled w),
   [input]).

(** [n] ticks in a row with the same buttons held; [env] gives each tick its
    [input] and [mouseMovement_2]. *)
Fixpoint run_ticks (buttons : Buttons)
  (env : list (VideoCore.RenderHacksInput * Q)) (w : EmuWindow) : EmuWindow :=
  match env with
  | [] => w
  | (input, mouseMovement_2) :: env' =>
      run_ticks buttons env'
        (fst (UpdateCameraHack buttons input mouseMovement_2 w))
  end.

End CameraHack.

(** The three movement axes, with the element of [keyMovement] and the two
    keys of each. *)
Inductive Axis : Type := Strafe | Vertical | Forward.

Definition velocity (a : Axis) (v : Common.vec3) : Q :=
  match a with
  | Strafe => Common.vx v
  | Vertical => Common.vy v
  | Forward => Common.vz v
  end.

(** The velocity of an axis in a window. *)
Definition speed (a : Axis) (w : EmuWindow) : Q :=
  velocity a (keyMovement (fps_camera_controller w)).

Definition key_neg (a : Axis) (b : Buttons) : bool :=
  match a with Strafe => keyA b | Vertical => keyQ b | Forward => keyW b end.

Definition key_pos (a : Axis) (b : Buttons) : bool :=
  match a with Strafe => keyD b | Vertical => keyE b | Forward => keyS b end.

End Frontend.


(** ** String utilities of [string_util.cpp]

    A [std::string] is the list of its bytes.  Positions and sizes are
    natural numbers; [npos] is the absence of a position ([None]), and where
    the source does [size_t] arithmetic that can wrap, the 64-bit wrap-around
    is written out in [Z].  The length limit [max_size()] of a real string
    is outside the model, except where a count converted from a negative
    [int] exceeds it. *)

Module StringUtil.

Local Open Scope nat_scope.

Definition str : Type := list ascii.

(** A string literal as a [std::string]. *)
Definition lit (s : String.string) : str := String.list_ascii_of_string s.

Definition str_eq_dec : forall a b : str, {a = b} + {a <> b} :=
  list_eq_dec ascii_dec.

(** *** The members of [std::string] the file uses *)

(** Whether [c] occurs in [chars]. *)
Fixpoint mem (c : ascii) (chars : str) : bool :=
  match chars with
  | [] => false
  | d :: chars' => Ascii.eqb c d || mem c chars'
  end.

(** [s.find_first_not_of(chars)]: the first position whose character is not
    in [chars]. *)
Fixpoint find_first_not_of (chars s : str) : option nat :=
  match s with
  | [] => None
  | c :: s' =>
      if mem c chars then option_map S (find_first_not_of chars s')
      else Some 0
  end.

(** [s.find_last_not_of(chars)]: the last position whose character is not in
    [chars]. *)
Fixpoint find_last_not_of (chars s : str) : option nat :=
  match s with
  | [] => None
  | c :: s' =>
      match find_last_not_of chars s' with
      | Some i => Some (S i)
      | None => if mem c chars then None else Some 0
      end
  end.

(** [s.find_last_of(chars)]: the last position whose character is in
    [chars]. *)
Fixpoint find_last_of (chars s : str) : option nat :=
  match s with
  | [] => None
  | c :: s' =>
      match find_last_of chars s' with
      | Some i => Some (S i)
      | None => if mem c chars then Some 0 else None
      end
  end.

(** [s.rfind(c)]: the last position of the character [c]. *)
Definition rfind (c : ascii) (s : str) : option nat := find_last_of [c] s.

(** Whether [pat] is a prefix of [s]. *)
Fixpoint starts_with (pat s : str) : bool :=
  match pat, s with
  | [], _ => true
  | _ :: _, [] => false
  | p :: pat', c :: s' => Ascii.eqb p c && starts_with pat' s'
  end.

(** The first position, counted from [i], at which [pat] occurs in [s]. *)
Fixpoint find_from (pat s : str) (i : nat) : option nat :=
  if starts_with pat s then Some i
  else
    match s with
    | [] => None
    | _ :: s' => find_from pat s' (S i)
    end.

(** [s.find(pat, pos)]: the first position at or after [pos] at which [pat]
    occurs; an empty [pat] occurs at every position up to [s.size()]. *)
Definition find (s pat : str) (pos : nat) : option nat :=
  if length s <? pos then None else find_from pat (skipn pos s) pos.

(** [size_t] values: a position, or [npos] = 2^64 - 1. *)
Definition npos : Z := (2 ^ 64 - 1)%Z.

Definition size_t_of (p : option nat) : Z :=
  match p with
  | Some i => Z.of_nat i
  | None => npos
  end.

Definition wrap64 (z : Z) : Z := (z mod 2 ^ 64)%Z.

(** [s.substr(pos, count)] for [pos <= s.size()], which holds at every call
    in the file: at most [count] characters from [pos] on. *)
Definition substr (s : str) (pos : nat) (count : Z) : str :=
  firstn (Z.to_nat (Z.min count (Z.of_nat (length s) - Z.of_nat pos)))
         (skipn pos s).

(** [s.replace(pos, n, dest)] for [pos <= s.size()]. *)
Definition replace (s : str) (pos n : nat) (dest : str) : str :=
  firstn pos s ++ dest ++ skipn (pos + n) s.

(** *** Case conversion *)

(** [std::tolower] and [std::toupper] in the "C" locale, the locale of a
    program that has not called [setlocale]. *)
Definition tolower (c : ascii) : ascii :=
  let n := nat_of_ascii c in
  if (65 <=? n) && (n <=? 90) then ascii_of_nat (n + 32) else c.

Definition toupper (c : ascii) : ascii :=
  let n := nat_of_ascii c in
  if (97 <=? n) && (n <=? 122) then ascii_of_nat (n - 32) else c.

Definition ToLower (s : str) : str := map tolower s.

Definition ToUpper (s : str) : str := map toupper s.

(** *** Stripping *)

(** The set [" \t\r\n"]. *)
Definition whitespace : str :=
  [" "%char; "009"%char; "013"%char; "010"%char].

Definition StripSpaces (s : str) : str :=
  match find_first_not_of whitespace s with
  | Some first =>
      substr s first
        (wrap64 (size_t_of (find_last_not_of whitespace s)
                 - Z.of_nat first + 1))
  | None => []
  end.

(** The double quote. *)
Definition quote : ascii := "034"%char.

Definition StripQuotes (s : str) : str :=
  match s with
  | [] => s
  | first :: _ =>
      if Ascii.eqb quote first && Ascii.eqb quote (last s first)
      then substr s 1 (wrap64 (Z.of_nat (length s) - 2))
      else s
  end.

Definition StringFromBool (value : bool) : str :=
  if value then ["T"%char; "r"%char; "u"%char; "e"%char]
  else ["F"%char; "a"%char; "l"%char; "s"%char; "e"%char].

(** *** Paths *)

(** [SplitPath] on a system other than Windows, with all three output
    pointers given.  [None] is the return value [false], with nothing
    written; [Some (path, filename, extension)] is [true]. *)
Definition SplitPath (full_path : str) : option (str * str * str) :=
  match full_path with
  | [] => None
  | _ :: _ =>
      let dir_end :=
        match find_last_of ["/"%char] full_path with
        | None => 0
        | Some i => i + 1
        end in
      let fname_end :=
        match rfind "."%char full_path with
        | Some i => if i <? dir_end then length full_path else i
        | None => length full_path
        end in
      Some (substr full_path 0 (Z.of_nat dir_end),
            substr full_path dir_end (Z.of_nat (fname_end - dir_end)),
            substr full_path fname_end npos)
  end.

(** [BuildCompleteFilename]: the string left in [_CompleteFilename].
    [DIR_SEP_CHR] is a macro of common/common_paths.h, which is not among
    the sources; it is taken as a parameter.  On an empty [_Path] the source
    reads [*rbegin()] of an empty string, which is undefined: [None]. *)
Definition BuildCompleteFilename (DIR_SEP_CHR : ascii) (_Path _Filename : str)
  : option str :=
  match _Path with
  | [] => None
  | first :: _ =>
      let complete := _Path in
      let complete :=
        if negb (Ascii.eqb DIR_SEP_CHR (last complete first))
        then complete ++ [DIR_SEP_CHR]
        else complete in
      Some (complete ++ _Filename)
  end.

(** *** Splitting at a delimiter *)

(** A [std::istringstream]: the characters not read yet and two of its
    state bits. *)
Record istringstream : Type := MkStream {
  unread : str;
  eofbit : bool;
  failbit : bool
}.

(** The characters before the first [delim], and what follows it when there
    is one. *)
Fixpoint break_at (delim : ascii) (s : str) : str * option str :=
  match s with
  | [] => ([], None)
  | c :: s' =>
      if Ascii.eqb c delim then ([], Some s')
      else let (line, rest) := break_at delim s' in (c :: line, rest)
  end.

(** [std::getline(iss, line, delim)]: the stream afterwards and the contents
    of [line].  On a stream that is not good nothing is read, [failbit] is
    set and [line] is as it was.  Otherwise [line] is erased and filled up
    to the delimiter, which is taken from the stream and dropped; reaching
    the end instead sets [eofbit], and [failbit] too when no character was
    taken. *)
Definition getline (iss : istringstream) (line : str) (delim : ascii)
  : istringstream * str :=
  if eofbit iss || failbit iss
  then (MkStream (unread iss) (eofbit iss) true, line)
  else
    match break_at delim (unread iss) with
    | (read, Some rest) => (MkStream rest false false, read)
    | (read, None) =>
        (MkStream [] true (match read with [] => true | _ => false end), read)
    end.

(** The loop of [SplitString]: [getline] into [*output.rbegin()], then
    [emplace_back] while the stream has not failed; [pop_back] at the end.
    [None] when [fuel] iterations were not enough. *)
Fixpoint SplitString_loop (fuel : nat) (iss : istringstream) (delim : ascii)
  (output : list str) : option (list str) :=
  match fuel with
  | O => None
  | S fuel' =>
      let (iss', line) := getline iss (last output []) delim in
      let output := removelast output ++ [line] in
      if failbit iss' then Some (removelast output)
      else SplitString_loop fuel' iss' delim (output ++ [[]])
  end.

(** [SplitString(s, delim, output)]: the vector left in [output], which the
    call first resizes to one element. *)
Definition SplitString (fuel : nat) (s : str) (delim : ascii)
  (output : list str) : option (list str) :=
  let iss := MkStream s false false in
  let output :=
    match output with
    | [] => [[]]
    | first :: _ => [first]
    end in
  SplitString_loop fuel iss delim output.

(** *** Replacing *)

(** How a call that may throw or may not return has ended. *)
Inductive outcome (A : Type) : Type :=
| Returned (a : A)
| Threw
| OutOfFuel.

Arguments Returned {A} a.
Arguments Threw {A}.
Arguments OutOfFuel {A}.

Definition tab : ascii := "009"%char.

(** The loop of [TabsToSpaces].  [in.replace(i, 1, tab_size, ' ')] converts
    the [int] to [size_t]: a negative [tab_size] becomes a count beyond
    [max_size()] and the call throws [std::length_error]. *)
Fixpoint TabsToSpaces (fuel : nat) (tab_size : Z) (s : str) : outcome str :=
  match fuel with
  | O => OutOfFuel
  | S fuel' =>
      match find s [tab] 0 with
      | None => Returned s
      | Some i =>
          if (tab_size <? 0)%Z then Threw
          else
            TabsToSpaces fuel' tab_size
              (replace s i 1 (repeat " "%char (Z.to_nat tab_size)))
      end
  end.

(** The loop of [ReplaceAll]. *)
Fixpoint ReplaceAll_loop (fuel : nat) (result src dest : str) (pos : nat)
  : option str :=
  match fuel with
  | O => None
  | S fuel' =>
      match find result src pos with
      | None => Some result
      | Some p =>
          ReplaceAll_loop fuel' (replace result p (length src) dest) src dest
                          (p + length dest)
      end
  end.

(** [ReplaceAll(result, src, dest)]; [None] when [fuel] iterations of the
    loop were not enough. *)
Definition ReplaceAll (fuel : nat) (result src dest : str) : option str :=
  if str_eq_dec src dest then Some result
  else ReplaceAll_loop fuel result src dest 0.

(** *** Fixed buffers *)

Definition NUL : ascii := "000"%char.

(** The loop [while (len < max_len && buffer[len] != 0) ++len] of
    [StringFromFixedZeroTerminatedBuffer], on the bytes the buffer holds.
    [None] when the loop reads past the last of them. *)
Fixpoint terminated_length (buffer : str) (max_len : nat) {struct max_len}
  : option nat :=
  match max_len with
  | O => Some 0
  | S max_len' =>
      match buffer with
      | [] => None
      | c :: buffer' =>
          if Ascii.eqb c NUL then Some 0
          else option_map S (terminated_length buffer' max_len')
      end
  end.

Definition StringFromFixedZeroTerminatedBuffer (buffer : str) (max_len : nat)
  : option str :=
  option_map (fun len => firstn len buffer)
             (terminated_length buffer max_len).

End StringUtil.
(** * Concrete windows, layouts and matrices used below *)

Module Scenario.

Import Common Settings Layout Frontend.

(** A matrix with a scale and a translation, of determinant 8. *)
Definition sample_matrix : mat4 :=
  Mat4 2 0 0 0
       0 2 0 0
       0 0 2 0
       3 (-1) 5 1.

Definition no_cardboard : CardboardSettings := MkCardboard 0 0.

(** The stacked layout of the spec's scenario: a 400x240 top screen above
    the bottom screen {40, 240, 360, 480}. *)
Definition stacked_layout (rotated : bool) : FramebufferLayout :=
  MkLayout 400 (MkRectangle 0 0 400 240) (MkRectangle 40 240 360 480)
           rotated no_cardboard.

(** Side layout, top screen on the left: 400x240 beside 320x240. *)
Definition side_layout : FramebufferLayout :=
  MkLayout 720 (MkRectangle 0 0 400 240) (MkRectangle 400 0 720 240)
           true no_cardboard.

(** Side layout with the screens swapped: bottom screen on the left. *)
Definition swapped_side_layout : FramebufferLayout :=
  MkLayout 720 (MkRectangle 320 0 720 240) (MkRectangle 0 0 320 240)
           true no_cardboard.

(** A layout whose bottom screen is wider than the framebuffer. *)
Definition oversized_layout : FramebufferLayout :=
  MkLayout 100 (MkRectangle 0 240 400 480) (MkRectangle 0 0 400 240)
           true no_cardboard.

Definition idle_touch : TouchState := MkTouchState false 0 0.

Definition idle_camera : CameraHackState := MkCameraHackState false 0 0 0 0.

Definition camera_at_rest : FpsCameraController :=
  MkFpsCameraController mat4_identity (Vec3 0 0 0) (0, 0).

(** A window in its initial state over a given layout. *)
Definition window (layout : FramebufferLayout) : EmuWindow :=
  MkEmuWindow layout idle_touch idle_camera camera_at_rest false.

(** The same window with the layout's [is_rotated] replaced. *)
Definition with_rotation (w : EmuWindow) (rotated : bool) : EmuWindow :=
  let l := framebuffer_layout w in
  MkEmuWindow
    (MkLayout (width l) (top_screen l) (bottom_screen l) rotated (cardboard l))
    (touch_state w) (camera_hack_state w) (fps_camera_controller w)
    (fog_disabled w).

(** The spec's SideBySide scenario: framebuffer width 800, with the
    left-eye touch region [40, 360) and the right-eye region [440, 760). *)
Definition stereo_layout : FramebufferLayout :=
  MkLayout 800 (MkRectangle 0 0 800 480) (MkRectangle 80 480 720 960)
           true no_cardboard.

(** Over [side_layout] under SideBySide: a press in the right-eye touch
    region, then a press on the top screen with the first one still down. *)
Definition pressed_then_grabbed : EmuWindow :=
  let w := window side_layout in
  let w := fst (TouchPressed SideBySide w 600 100) in
  fst (TouchPressed SideBySide w 5 5).

Definition no_buttons : Buttons :=
  MkButtons false false false false false false false false.

(** Only W (forward) held. *)
Definition only_W : Buttons :=
  MkButtons true false false false false false false false.

(** Only E (up) held. *)
Definition only_E : Buttons :=
  MkButtons false false false false false false false true.

Definition zero_matrix : mat4 :=
  Mat4 0 0 0 0
       0 0 0 0
       0 0 0 0
       0 0 0 0.

(** A window whose controller holds the all-zero matrix: a zero-initialised
    [worldMatrix] on which the reset key has not been pressed. *)
Definition singular_window : EmuWindow :=
  MkEmuWindow (stacked_layout true) idle_touch idle_camera
    (MkFpsCameraController zero_matrix (Vec3 0 0 0) (0, 0)) false.

(** The identity pitched by a quarter turn about the X axis, as
    [mat4_rotate] builds it for [sin = 1], [cos = 0]: the second column is
    (0, 0, 1, 0) and the third (0, -1, 0, 0). *)
Definition pitched_matrix : mat4 :=
  Mat4 1 0 0 0
       0 0 1 0
       0 (-1) 0 0
       0 0 0 1.

(** A camera at rest, looking straight up or down. *)
Definition pitched_window : EmuWindow :=
  MkEmuWindow (stacked_layout true) idle_touch idle_camera
    (MkFpsCameraController pitched_matrix (Vec3 0 0 0) (0, 0)) false.

(** Five ticks, each with the same declared [input] and a zero after
    [mouseMovement]. *)
Definition five_ticks (input : VideoCore.RenderHacksInput)
  : list (VideoCore.RenderHacksInput * Q) :=
  repeat (input, 0) 5.

(** Stand-ins for the C library on the inputs used below: a [sqrt] that is
    exact at 1, and the sine and cosine of an angle with [sin = 3/5],
    [cos = 4/5], and of the zero angle. *)
Definition sqrt_at_one (q : Q) : Q := q.
Definition sin_3_5 (angle : Q) : Q := 3 # 5.
Definition cos_4_5 (angle : Q) : Q := 4 # 5.
Definition sin_zero (angle : Q) : Q := 0.
Definition cos_zero (angle : Q) : Q := 1.

(** The top screen and the touch region of a layout share no pixel. *)
Definition screens_disjoint (r : StereoRenderOption)
  (layout : FramebufferLayout) : Prop :=
  forall x y : Z,
    IsWithinTouchscreen r layout x y = true ->
    IsWithinTopScreen layout x y = None.

(** The bottom screen has pixels: it is not empty in either direction (after
    halving under SideBySide). *)
Definition touch_region_nonempty (r : StereoRenderOption)
  (layout : FramebufferLayout) : Prop :=
  (top (bottom_screen layout) < bottom (bottom_screen layout))%Z /\
  match r with
  | SideBySide =>
      (left (bottom_screen layout) / 2 < right (bottom_screen layout) / 2)%Z
  | _ => (left (bottom_screen layout) < right (bottom_screen layout))%Z
  end.

(** The stereo options whose pixel correction involves the layout's width
    only, with the bottom screen inside the framebuffer under SideBySide. *)
Definition stereo_fits (r : StereoRenderOption) (layout : FramebufferLayout)
  : Prop :=
  match r with
  | Off => True
  | SideBySide => (right (bottom_screen layout) <= width layout)%Z
  | CardboardVR => False
  end.

(** The largest speed cap, with the boost: [keyMoveSpeed * keyMoveShiftMult]. *)
Definition top_speed : Q := 50.

(** [top_speed] after [k] ticks of drag. *)
Fixpoint decayed (k : nat) : Q :=
  match k with
  | O => top_speed
  | S k' => decayed k' * keyMoveDrag
  end.

(** Ticks of drag after which every speed up to [top_speed] has come to
    rest. *)
Definition ticks_to_rest : nat := 39.

End Scenario.

(** * Sample strings *)

Module Text.

Import StringUtil.
Import String.

Local Open Scope string_scope.

(** A string whose size a [size_t] can hold, as every [std::string] is. *)
Definition fits (s : str) : Prop := (Z.of_nat (List.length s) < 2 ^ 64)%Z.

(** Every character of [s] is in [chars]. *)
Definition all_in (chars s : str) : Prop :=
  Forall (fun c => mem c chars = true) s.

Definition slash : ascii := "/"%char.
Definition dot : ascii := "."%char.

(** The fields of [s] between occurrences of [delim]; a delimiter at the
    very end starts no further field. *)
Fixpoint fields (delim : ascii) (s : str) : list str :=
  match s with
  | nil => nil
  | (c :: s')%list =>
      if Ascii.eqb c delim then (nil :: fields delim s')%list
      else
        match fields delim s' with
        | nil => ((c :: nil) :: nil)%list
        | (f :: fs)%list => ((c :: f) :: fs)%list
        end
  end.

(** [s] with a [delim] put at its end unless it is empty or has one there. *)
Definition terminated (delim : ascii) (s : str) : str :=
  match s with
  | nil => nil
  | (c :: _)%list =>
      if Ascii.eqb (List.last s c) delim then s else (s ++ (delim :: nil))%list
  end.

(** Each tab of [s] replaced by [n] spaces. *)
Definition expand_tabs (n : nat) (s : str) : str :=
  List.flat_map
    (fun c => if Ascii.eqb c tab then List.repeat " "%char n
              else (c :: nil)%list)
    s.

Definition hello : str := lit "hello".
Definition padded_hello : str := lit "  hello 	".
Definition hello_world : str := lit "Hello, World".
Definition archive_path : str := lit "/usr/lib/a.tar.gz".
Definition lib_dir : str := lit "/usr/lib".
Definition archive_name : str := lit "a.tar.gz".
Definition csv_line : str := lit "a,b,,c".
Definition tabbed : str := lit "a	b	".
Definition dos_path : str := lit "c:\dir\file".

End Text.

(** * Matrices of doubles *)

Module DoubleScenario.

Import Floats.
Import Double.

Local Open Scope float_scope.

(** A matrix of determinant [- 2^-60]: the product of its first two diagonal
    elements, [1 - 2^-60], rounds to 1. *)
Definition near_singular : mat4 :=
  Mat4 (1 + 0x1p-30) 1 0 0
       1 (1 - 0x1p-30) 0 0
       0 0 1 0
       0 0 0 1.

(** The doubles nearest to 0.1, 0.2, 0.3; 0.4, 0.5, 0.6; 0.7, 0.8,
    0.9000001 in the upper left block. *)
Definition ill_conditioned : mat4 :=
  Mat4 0x1.999999999999ap-4 0x1.999999999999ap-3 0x1.3333333333333p-2 0
       0x1.999999999999ap-2 0x1p-1 0x1.3333333333333p-1 0
       0x1.6666666666666p-1 0x1.999999999999ap-1 0x1.ccccd027cb202p-1 0
       0 0 0 1.

End DoubleScenario.

(** * Properties *)

(** ** The comparison helpers *)

Lemma Qltb_true (a b : Q) : Qltb a b = true <-> a < b.
Proof.
  unfold Qltb. rewrite negb_true_iff.
  split; intro H.
  - apply Qnot_le_lt. intro Hle. apply Qle_bool_iff in Hle. congruence.
  - destruct (Qle_bool b a) eqn:E; trivial.
    apply Qle_bool_iff in E. exfalso. apply (Qlt_not_le _ _ H E).
Qed.

Lemma Qltb_false (a b : Q) : Qltb a b = false <-> b <= a.
Proof.
  unfold Qltb. rewrite negb_false_iff. apply Qle_bool_iff.
Qed.

(** ** The matrix routines *)

Module CommonSpec.

Import Common.

(** The value [mat4_inverse] tests against zero is the determinant. *)
Lemma inverse_d_det4 (mat : mat4) : inverse_d mat == det4 mat.
Proof. destruct mat. unfold inverse_d, det4, det3. cbn. ring. Qed.

(** [mat4_inverse] fails exactly on the matrices of determinant zero. *)
Lemma mat4_inverse_None (mat : mat4) :
  mat4_inverse mat = None <-> det4 mat == 0.
Proof.
  rewrite <- inverse_d_det4.
  unfold mat4_inverse, inverse_d. cbv zeta.
  destruct (Qeq_bool _ 0) eqn:E.
  - apply Qeq_bool_iff in E. split; [intros _; exact E | reflexivity].
  - apply Qeq_bool_neq in E. split; [discriminate | intro H; contradiction].
Qed.

Lemma mat4_eq_close (eps : Q) (a b : mat4) :
  0 <= eps -> mat4_eq a b -> mat4_close eps a b.
Proof.
  intros Heps H. unfold mat4_eq in H. unfold mat4_close.
  assert (K : forall p q : Q, p == q -> Qabs (p - q) <= eps).
  { intros p q E. rewrite E.
    setoid_replace (q - q) with 0 by ring. exact Heps. }
  repeat match goal with
         | H : _ /\ _ |- _ => destruct H
         end.
  repeat split; apply K; assumption.
Qed.

(** On an invertible matrix [mat4_inverse] returns a left inverse for
    [mat4_multiply]. *)
Lemma mat4_inverse_multiply (mat : mat4) :
  ~ det4 mat == 0 ->
  exists inv, mat4_inverse mat = Some inv /\
              mat4_eq (mat4_multiply inv mat) mat4_identity.
Proof.
  intro Hd. rewrite <- inverse_d_det4 in Hd.
  unfold mat4_inverse. unfold inverse_d in Hd. cbv zeta in *.
  destruct (Qeq_bool _ 0) eqn:E.
  - apply Qeq_bool_iff in E. contradiction.
  - clear E. eexists. split; [reflexivity|].
    destruct mat. cbn in *. unfold mat4_eq. cbn.
    repeat split; field; exact Hd.
Qed.

(** A translation leaves the determinant as it is. *)
Lemma det4_translate (mat : mat4) (v : vec3) :
  det4 (mat4_translate mat v) == det4 mat.
Proof. destruct mat, v. unfold det4, det3, mat4_translate. cbn. ring. Qed.

(** The product that [mat4_rotate] writes multiplies the determinant by the
    determinant of the 3x3 block it multiplies with. *)
Lemma det4_rotate_block
  (a00 a01 a02 a03 a10 a11 a12 a13 a20 a21 a22 a23 a30 a31 a32 a33
   b00 b01 b02 b10 b11 b12 b20 b21 b22 : Q) :
  det4 (Mat4
      (a00 * b00 + a10 * b01 + a20 * b02)
      (a01 * b00 + a11 * b01 + a21 * b02)
      (a02 * b00 + a12 * b01 + a22 * b02)
      (a03 * b00 + a13 * b01 + a23 * b02)
      (a00 * b10 + a10 * b11 + a20 * b12)
      (a01 * b10 + a11 * b11 + a21 * b12)
      (a02 * b10 + a12 * b11 + a22 * b12)
      (a03 * b10 + a13 * b11 + a23 * b12)
      (a00 * b20 + a10 * b21 + a20 * b22)
      (a01 * b20 + a11 * b21 + a21 * b22)
      (a02 * b20 + a12 * b21 + a22 * b22)
      (a03 * b20 + a13 * b21 + a23 * b22)
      a30 a31 a32 a33)
  == det4 (Mat4 a00 a01 a02 a03 a10 a11 a12 a13
                a20 a21 a22 a23 a30 a31 a32 a33)
     * det3 b00 b01 b02 b10 b11 b12 b20 b21 b22.
Proof. unfold det4, det3. cbn. ring. Qed.

(** A rotation of a singular matrix is singular, whatever [sqrt], [sin]
    and [cos] return. *)
Lemma det4_rotate (sqrt sin cos : Q -> Q) (mat rotated : mat4) (angle : Q)
  (v : vec3) :
  mat4_rotate sqrt sin cos mat angle v = Some rotated ->
  det4 mat == 0 -> det4 rotated == 0.
Proof.
  unfold mat4_rotate. cbv zeta.
  destruct (Qeq_bool _ 0); [discriminate|].
  destruct (negb _); intros H HM; injection H as <-; destruct mat;
    cbn [m0 m1 m2 m3 m4 m5 m6 m7 m8 m9 m10 m11 m12 m13 m14 m15];
    rewrite det4_rotate_block, HM; ring.
Qed.

(** In doubles the claim of C8 fails on both counts.  [near_singular] has
    determinant [- 2^-60], yet the value the routine tests rounds to zero
    and [mat4_inverse] returns [NULL].  [ill_conditioned] has a determinant
    other than zero and [mat4_inverse] succeeds, but
    [mat4_multiply(inverse, M)] is further than 1e-9 from the identity. *)
Lemma mat4_inverse_double_fails :
  (exists E,
     Double.exact_mat4 DoubleScenario.near_singular = Some E /\
     ~ det4 E == 0 /\
     Double.mat4_inverse DoubleScenario.near_singular = None) /\
  (exists E inv P,
     Double.exact_mat4 DoubleScenario.ill_conditioned = Some E /\
     ~ det4 E == 0 /\
     Double.mat4_inverse DoubleScenario.ill_conditioned = Some inv /\
     Double.exact_mat4
       (Double.mat4_multiply inv DoubleScenario.ill_conditioned) = Some P /\
     ~ mat4_close (1 / 1000000000) P mat4_identity).
Proof.
  split.
  - eexists. split; [vm_compute; reflexivity |].
    split; [vm_compute; discriminate | vm_compute; reflexivity].
  - eexists. eexists. eexists.
    split; [vm_compute; reflexivity |].
    split; [vm_compute; discriminate |].
    split; [vm_compute; reflexivity |].
    split; [vm_compute; reflexivity |].
    intro H. destruct H as (_ & _ & _ & _ & _ & _ & _ & _ & H & _).
    vm_compute in H. apply H. reflexivity.
Qed.

(** C8.  [mat4_inverse] of the identity matrix is the identity matrix, in
    doubles as over the rationals.  When the formulas of the routine are
    evaluated without rounding, for every matrix [M] whose determinant is not
    zero [mat4_inverse] succeeds with a matrix [inv] such that
    [mat4_multiply(inv, M)] is the identity: exactly in every element, hence
    also to within 1e-9. *)
Theorem mat4_inverse_spec :
  Double.mat4_inverse Double.mat4_identity = Some Double.mat4_identity /\
  mat4_inverse mat4_identity = Some mat4_identity /\
  forall M : mat4,
    ~ det4 M == 0 ->
    exists inv,
      mat4_inverse M = Some inv /\
      mat4_eq (mat4_multiply inv M) mat4_identity /\
      mat4_close (1 / 1000000000) (mat4_multiply inv M) mat4_identity.
Proof.
  split; [vm_compute; reflexivity |].
  split.
  - reflexivity.
  - intros M Hd.
    destruct (mat4_inverse_multiply M Hd) as (inv & Hinv & Heq).
    exists inv. split; [exact Hinv | split; [exact Heq |]].
    apply mat4_eq_close; [discriminate | exact Heq].
Qed.

Lemma mat4_inverse_spec_witness :
  ~ det4 Scenario.sample_matrix == 0 /\
  exists inv,
    mat4_inverse Scenario.sample_matrix = Some inv /\
    mat4_eq (mat4_multiply inv Scenario.sample_matrix) mat4_identity /\
    mat4_close (1 / 1000000000) (mat4_multiply inv Scenario.sample_matrix)
               mat4_identity.
Proof.
  assert (H : ~ det4 Scenario.sample_matrix == 0) by (vm_compute; discriminate).
  split; [exact H |].
  exact (proj2 (proj2 mat4_inverse_spec) Scenario.sample_matrix H).
Defined.

End CommonSpec.

(** ** Touch mapping *)

Module FrontendSpec.

Import Settings Layout Frontend.

Local Open Scope Z_scope.

Lemma wrap_small (z : Z) : U32.in_range z -> U32.wrap z = z.
Proof. unfold U32.in_range, U32.wrap. intro H. apply Z.mod_small. exact H. Qed.

Lemma half_bounds (z : Z) :
  U32.in_range z -> 0 <= z / 2 < 2 ^ 31.
Proof.
  unfold U32.in_range, U32.modulus. intros [H0 H1].
  split.
  - apply Z.div_pos; lia.
  - apply Z.div_lt_upper_bound; lia.
Qed.

(** The sum of two halved [unsigned] values does not wrap. *)
Lemma add_halves (a b : Z) :
  U32.in_range a -> U32.in_range b -> U32.add (a / 2) (b / 2) = a / 2 + b / 2.
Proof.
  intros Ha Hb. unfold U32.add. apply wrap_small.
  pose proof (half_bounds a Ha). pose proof (half_bounds b Hb).
  unfold U32.in_range, U32.modulus. lia.
Qed.

(** Boolean tests of the source as propositions. *)
Ltac btest :=
  repeat first
    [ rewrite andb_true_iff | rewrite orb_true_iff
    | rewrite andb_false_iff | rewrite orb_false_iff
    | rewrite negb_true_iff | rewrite negb_false_iff
    | rewrite Z.leb_le | rewrite Z.ltb_lt
    | rewrite Z.leb_gt | rewrite Z.ltb_ge ].

Ltac btest_in H :=
  repeat first
    [ rewrite andb_true_iff in H | rewrite orb_true_iff in H
    | rewrite andb_false_iff in H | rewrite orb_false_iff in H
    | rewrite negb_true_iff in H | rewrite negb_false_iff in H
    | rewrite Z.leb_le in H | rewrite Z.ltb_lt in H
    | rewrite Z.leb_gt in H | rewrite Z.ltb_ge in H ].

(** What [IsWithinTouchscreen] tests under SideBySide, without wrap-around. *)
Lemma IsWithinTouchscreen_SideBySide_iff (layout : FramebufferLayout)
  (x y : Z) :
  Layout.in_range layout ->
  IsWithinTouchscreen SideBySide layout x y = true <->
  (top (bottom_screen layout) <= y < bottom (bottom_screen layout)) /\
  (left (bottom_screen layout) / 2 <= x < right (bottom_screen layout) / 2 \/
   left (bottom_screen layout) / 2 + width layout / 2 <= x
     < right (bottom_screen layout) / 2 + width layout / 2).
Proof.
  intros (Hw & _ & (Hl & _ & Hr & _) & _).
  unfold IsWithinTouchscreen. cbv zeta.
  rewrite !add_halves by assumption.
  btest. lia.
Qed.

(** C7.  Under SideBySide, for a pixel whose [y] is inside the bottom screen,
    [IsWithinTouchscreen] accepts exactly the [x] of [left/2, right/2) and of
    [left/2 + width/2, right/2 + width/2), and rejects every [x] of the gap
    [right/2, left/2 + width/2).  The layout fields are [unsigned] values;
    no relation between the bottom screen's width and the framebuffer's is
    needed. *)
Theorem IsWithinTouchscreen_SideBySide_regions (layout : FramebufferLayout)
  (x y : Z) :
  Layout.in_range layout ->
  top (bottom_screen layout) <= y < bottom (bottom_screen layout) ->
  (IsWithinTouchscreen SideBySide layout x y = true <->
     (left (bottom_screen layout) / 2 <= x < right (bottom_screen layout) / 2 \/
      left (bottom_screen layout) / 2 + width layout / 2 <= x
        < right (bottom_screen layout) / 2 + width layout / 2)) /\
  (right (bottom_screen layout) / 2 <= x
     < left (bottom_screen layout) / 2 + width layout / 2 ->
   IsWithinTouchscreen SideBySide layout x y = false).
Proof.
  intros Hr Hy.
  pose proof (IsWithinTouchscreen_SideBySide_iff layout x y Hr) as Hiff.
  split.
  - rewrite Hiff. tauto.
  - intro Hgap. apply not_true_is_false. rewrite Hiff. lia.
Qed.

Ltac layout_in_range :=
  unfold Layout.in_range, rect_in_range, U32.in_range, U32.modulus; cbn; lia.

Lemma IsWithinTouchscreen_SideBySide_regions_witness :
  let layout := Scenario.stereo_layout in
  (IsWithinTouchscreen SideBySide layout 600 500 = true <->
     (left (bottom_screen layout) / 2 <= 600
        < right (bottom_screen layout) / 2 \/
      left (bottom_screen layout) / 2 + width layout / 2 <= 600
        < right (bottom_screen layout) / 2 + width layout / 2)) /\
  (right (bottom_screen layout) / 2 <= 600
     < left (bottom_screen layout) / 2 + width layout / 2 ->
   IsWithinTouchscreen SideBySide layout 600 500 = false).
Proof.
  apply (IsWithinTouchscreen_SideBySide_regions Scenario.stereo_layout 600 500).
  - layout_in_range.
  - cbn. lia.
Defined.

(** C5.  Stereo off, bottom screen {40, 240, 360, 480}, width 400, rotated
    layout, pixel (200, 360) outside the top screen: [TouchPressed] returns
    true, sets [touch_pressed] and stores the coordinates (1/2, 1/2). *)
Theorem TouchPressed_stacked_centre (w : EmuWindow) :
  bottom_screen (framebuffer_layout w) = MkRectangle 40 240 360 480 ->
  width (framebuffer_layout w) = 400 ->
  is_rotated (framebuffer_layout w) = true ->
  IsWithinTopScreen (framebuffer_layout w) 200 360 = None ->
  snd (TouchPressed Off w 200 360) = Some true /\
  touch_pressed (touch_state (fst (TouchPressed Off w 200 360))) = true /\
  (touch_x (touch_state (fst (TouchPressed Off w 200 360))) == 1 # 2)%Q /\
  (touch_y (touch_state (fst (TouchPressed Off w 200 360))) == 1 # 2)%Q.
Proof.
  intros Hbs Hw Hrot Htop.
  unfold TouchPressed. rewrite Htop.
  unfold IsWithinTouchscreen, undo_stereo_offset.
  rewrite Hbs, Hw, Hrot. cbn.
  repeat split; reflexivity.
Qed.

Lemma TouchPressed_stacked_centre_witness :
  let w := Scenario.window (Scenario.stacked_layout true) in
  snd (TouchPressed Off w 200 360) = Some true /\
  touch_pressed (touch_state (fst (TouchPressed Off w 200 360))) = true /\
  (touch_x (touch_state (fst (TouchPressed Off w 200 360))) == 1 # 2)%Q /\
  (touch_y (touch_state (fst (TouchPressed Off w 200 360))) == 1 # 2)%Q.
Proof.
  apply (TouchPressed_stacked_centre
           (Scenario.window (Scenario.stacked_layout true)));
    reflexivity.
Defined.

(** [is_rotated] is read only after the two region tests. *)
Lemma TouchPressed_result_rotation (r : StereoRenderOption) (w : EmuWindow)
  (x y : Z) (rotated : bool) :
  snd (TouchPressed r (Scenario.with_rotation w rotated) x y)
  = snd (TouchPressed r w x y).
Proof.
  unfold TouchPressed, Scenario.with_rotation.
  change (IsWithinTopScreen
            (framebuffer_layout (MkEmuWindow _ _ _ _ _)) x y)
    with (IsWithinTopScreen (framebuffer_layout w) x y).
  destruct (IsWithinTopScreen (framebuffer_layout w) x y) as [[nx ny]|];
    [reflexivity|].
  change (IsWithinTouchscreen r
            (framebuffer_layout (MkEmuWindow _ _ _ _ _)) x y)
    with (IsWithinTouchscreen r (framebuffer_layout w) x y).
  destruct (IsWithinTouchscreen r (framebuffer_layout w) x y); cbn.
  - destruct rotated, (is_rotated (framebuffer_layout w)); reflexivity.
  - reflexivity.
Qed.

(** C4.  On a layout with [is_rotated = false], an accepted touch stores
    [touch_x = 1 - ny_raw] and [touch_y = nx_raw], where [(nx_raw, ny_raw)]
    is what the same call stores when the layout is rotated. *)
Theorem TouchPressed_swap_and_mirror (r : StereoRenderOption) (w : EmuWindow)
  (x y : Z) :
  is_rotated (framebuffer_layout w) = false ->
  snd (TouchPressed r w x y) = Some true ->
  let stored := touch_state (fst (TouchPressed r w x y)) in
  let raw :=
    touch_state (fst (TouchPressed r (Scenario.with_rotation w true) x y)) in
  touch_pressed stored = true /\
  touch_x stored = (1 - touch_y raw)%Q /\
  touch_y stored = touch_x raw.
Proof.
  intros Hrot Hacc. cbv zeta.
  revert Hacc.
  unfold TouchPressed, Scenario.with_rotation.
  change (IsWithinTopScreen
            (framebuffer_layout (MkEmuWindow _ _ _ _ _)) x y)
    with (IsWithinTopScreen (framebuffer_layout w) x y).
  destruct (IsWithinTopScreen (framebuffer_layout w) x y) as [[nx ny]|];
    [discriminate|].
  change (IsWithinTouchscreen r
            (framebuffer_layout (MkEmuWindow _ _ _ _ _)) x y)
    with (IsWithinTouchscreen r (framebuffer_layout w) x y).
  destruct (IsWithinTouchscreen r (framebuffer_layout w) x y); cbn;
    [|discriminate].
  rewrite Hrot. cbn. intros _. repeat split; reflexivity.
Qed.

Lemma TouchPressed_swap_and_mirror_witness :
  let w := Scenario.window (Scenario.stacked_layout false) in
  let stored := touch_state (fst (TouchPressed Off w 120 300)) in
  let raw :=
    touch_state
      (fst (TouchPressed Off (Scenario.with_rotation w true) 120 300)) in
  touch_pressed stored = true /\
  touch_x stored = (1 - touch_y raw)%Q /\
  touch_y stored = touch_x raw.
Proof.
  apply (TouchPressed_swap_and_mirror Off
           (Scenario.window (Scenario.stacked_layout false)) 120 300);
    reflexivity.
Defined.

(** C9.  A press that hits the top screen sets [grabbed], stores the offset
    of the pixel in the top screen in [tx], [ty], [lastX] and [lastY], and
    leaves the rest of the window, [TouchState] included, as it was.  A
    release while [grabbed] clears [grabbed] and leaves every other field of
    the window, [TouchState] included, as it was. *)
Theorem camera_grab_spares_TouchState :
  (forall (r : StereoRenderOption) (w : EmuWindow) (x y : Z),
      left (top_screen (framebuffer_layout w)) <= x
        < right (top_screen (framebuffer_layout w)) ->
      top (top_screen (framebuffer_layout w)) <= y
        < bottom (top_screen (framebuffer_layout w)) ->
      let w' := fst (TouchPressed r w x y) in
      let c := camera_hack_state w' in
      grabbed c = true /\
      tx c = U32.to_float
               (U32.sub x (left (top_screen (framebuffer_layout w)))) /\
      ty c = U32.to_float
               (U32.sub y (top (top_screen (framebuffer_layout w)))) /\
      lastX c = tx c /\ lastY c = ty c /\
      touch_state w' = touch_state w /\
      framebuffer_layout w' = framebuffer_layout w /\
      fps_camera_controller w' = fps_camera_controller w /\
      fog_disabled w' = fog_disabled w) /\
  (forall w : EmuWindow,
      grabbed (camera_hack_state w) = true ->
      let w' := TouchReleased w in
      let c := camera_hack_state w' in
      grabbed c = false /\
      tx c = tx (camera_hack_state w) /\
      ty c = ty (camera_hack_state w) /\
      lastX c = lastX (camera_hack_state w) /\
      lastY c = lastY (camera_hack_state w) /\
      touch_state w' = touch_state w /\
      framebuffer_layout w' = framebuffer_layout w /\
      fps_camera_controller w' = fps_camera_controller w /\
      fog_disabled w' = fog_disabled w).
Proof.
  split.
  - intros r w x y Hx Hy. cbv zeta.
    unfold TouchPressed, IsWithinTopScreen.
    replace ((left (top_screen (framebuffer_layout w)) <=? x)
             && (x <? right (top_screen (framebuffer_layout w)))
             && (top (top_screen (framebuffer_layout w)) <=? y)
             && (y <? bottom (top_screen (framebuffer_layout w))))%bool
      with true by (symmetry; btest; lia).
    cbn. repeat split; reflexivity.
  - intros w Hg. cbv zeta. unfold TouchReleased. rewrite Hg.
    cbn. repeat split; reflexivity.
Qed.

Lemma camera_grab_spares_TouchState_witness :
  let w := Scenario.window (Scenario.stacked_layout true) in
  let g := fst (TouchPressed Off w 5 5) in
  (grabbed (camera_hack_state g) = true /\
   tx (camera_hack_state g) = 5%Q /\
   touch_state g = touch_state w) /\
  (grabbed (camera_hack_state (TouchReleased g)) = false /\
   touch_state (TouchReleased g) = touch_state g).
Proof.
  cbv zeta. split.
  - pose proof (proj1 camera_grab_spares_TouchState Off
                  (Scenario.window (Scenario.stacked_layout true)) 5 5) as H.
    cbv zeta in H.
    destruct H as (Hg & Hx & _ & _ & _ & Ht & _); [cbn; lia | cbn; lia |].
    split; [exact Hg | split; [exact Hx | exact Ht]].
  - pose proof (proj2 camera_grab_spares_TouchState
                  (fst (TouchPressed Off
                          (Scenario.window (Scenario.stacked_layout true))
                          5 5))) as H.
    cbv zeta in H.
    destruct H as (Hg & _ & _ & _ & _ & Ht & _); [reflexivity |].
    split; [exact Hg | exact Ht].
Defined.

(** Under SideBySide a pixel of the right half is moved back by
    [width / 2] before it is normalized. *)
Lemma undo_stereo_offset_right_eye (layout : FramebufferLayout) (x : Z) :
  U32.in_range x ->
  0 <= width layout / 2 ->
  undo_stereo_offset SideBySide layout (x + width layout / 2) = x.
Proof.
  intros Hx Hw. unfold undo_stereo_offset.
  replace (width layout / 2 <=? x + width layout / 2) with true
    by (symmetry; apply Z.leb_le; unfold U32.in_range in Hx; lia).
  unfold U32.sub. replace (x + width layout / 2 - width layout / 2) with x
    by lia.
  apply wrap_small. exact Hx.
Qed.

(** C6, as the code has it.  Under SideBySide, for a pixel [(x, y)] of the
    left-eye touch region with [x < width / 2], when neither [(x, y)] nor
    the right-eye pixel [(x + width / 2, y)] is inside the top screen, both
    presses are accepted and store the same [TouchState]. *)
Theorem TouchPressed_SideBySide_both_eyes (w : EmuWindow) (x y : Z) :
  let layout := framebuffer_layout w in
  Layout.in_range layout ->
  top (bottom_screen layout) <= y < bottom (bottom_screen layout) ->
  left (bottom_screen layout) / 2 <= x < right (bottom_screen layout) / 2 ->
  x < width layout / 2 ->
  IsWithinTopScreen layout x y = None ->
  IsWithinTopScreen layout (x + width layout / 2) y = None ->
  snd (TouchPressed SideBySide w x y) = Some true /\
  snd (TouchPressed SideBySide w (x + width layout / 2) y) = Some true /\
  touch_state (fst (TouchPressed SideBySide w (x + width layout / 2) y))
  = touch_state (fst (TouchPressed SideBySide w x y)).
Proof.
  cbv zeta. intros Hr Hy Hx Hhalf Htl Htr.
  assert (Hl : IsWithinTouchscreen SideBySide (framebuffer_layout w) x y
               = true).
  { apply IsWithinTouchscreen_SideBySide_iff; [exact Hr | lia]. }
  assert (Hrt : IsWithinTouchscreen SideBySide (framebuffer_layout w)
                  (x + width (framebuffer_layout w) / 2) y = true).
  { apply IsWithinTouchscreen_SideBySide_iff; [exact Hr | lia]. }
  destruct Hr as (Hw & _ & (Hbl & _ & Hbr & _) & _).
  pose proof (half_bounds _ Hw) as Bw.
  pose proof (half_bounds _ Hbl) as Bl.
  pose proof (half_bounds _ Hbr) as Br.
  assert (Hxr : U32.in_range x)
    by (unfold U32.in_range, U32.modulus; lia).
  unfold TouchPressed. rewrite Htl, Htr, Hl, Hrt. cbn [negb fst snd].
  rewrite undo_stereo_offset_right_eye by (assumption || lia).
  replace (undo_stereo_offset SideBySide (framebuffer_layout w) x) with x.
  - destruct (is_rotated (framebuffer_layout w)); repeat split; reflexivity.
  - unfold undo_stereo_offset.
    replace (width (framebuffer_layout w) / 2 <=? x) with false
      by (symmetry; apply Z.leb_gt; lia).
    reflexivity.
Qed.

Lemma TouchPressed_SideBySide_both_eyes_witness :
  let w := Scenario.window Scenario.stereo_layout in
  snd (TouchPressed SideBySide w 200 500) = Some true /\
  snd (TouchPressed SideBySide w (200 + 800 / 2) 500) = Some true /\
  touch_state (fst (TouchPressed SideBySide w (200 + 800 / 2) 500))
  = touch_state (fst (TouchPressed SideBySide w 200 500)).
Proof.
  apply (TouchPressed_SideBySide_both_eyes
           (Scenario.window Scenario.stereo_layout) 200 500).
  - layout_in_range.
  - cbn. lia.
  - cbn. lia.
  - cbn. lia.
  - reflexivity.
  - reflexivity.
Defined.

(** C6 fails as stated, in two ways.  Over [swapped_side_layout] the pixel
    (10, 10) is in the left-eye region and outside the top screen, and its
    right-eye pixel (370, 10) is inside the top screen: the press grabs
    the camera, returns no value and stores no touch.  Over
    [oversized_layout] the left-eye pixel (60, 10) lies in the right half of
    the framebuffer, so it is itself moved back by [width / 2], and the two
    presses store different coordinates. *)
Lemma TouchPressed_SideBySide_eyes_differ :
  (let w := Scenario.window Scenario.swapped_side_layout in
   IsWithinTouchscreen SideBySide (framebuffer_layout w) 10 10 = true /\
   IsWithinTopScreen (framebuffer_layout w) 10 10 = None /\
   snd (TouchPressed SideBySide w 10 10) = Some true /\
   snd (TouchPressed SideBySide w (10 + 720 / 2) 10) = None /\
   touch_pressed
     (touch_state (fst (TouchPressed SideBySide w (10 + 720 / 2) 10)))
   = false) /\
  (let w := Scenario.window Scenario.oversized_layout in
   IsWithinTouchscreen SideBySide (framebuffer_layout w) 60 10 = true /\
   IsWithinTopScreen (framebuffer_layout w) 60 10 = None /\
   snd (TouchPressed SideBySide w 60 10) = Some true /\
   snd (TouchPressed SideBySide w (60 + 100 / 2) 10) = Some true /\
   ~ (touch_x (touch_state (fst (TouchPressed SideBySide w (60 + 100 / 2) 10)))
      == touch_x (touch_state (fst (TouchPressed SideBySide w 60 10))))%Q).
Proof.
  cbv zeta. split.
  - repeat split; reflexivity.
  - split; [reflexivity|]. split; [reflexivity|]. split; [reflexivity|].
    split; [reflexivity|]. vm_compute. discriminate.
Qed.

(** [TouchPressed] on a pixel outside the top screen does not touch the
    camera grab state. *)
Lemma TouchPressed_outside_top_camera (r : StereoRenderOption)
  (w : EmuWindow) (x y : Z) :
  IsWithinTopScreen (framebuffer_layout w) x y = None ->
  camera_hack_state (fst (TouchPressed r w x y)) = camera_hack_state w.
Proof.
  intro Htop. unfold TouchPressed. rewrite Htop.
  destruct (IsWithinTouchscreen r (framebuffer_layout w) x y); cbn;
    [|reflexivity].
  destruct (is_rotated (framebuffer_layout w)); reflexivity.
Qed.

(** C10, as the code has it.  While the camera is grabbed, a move to a pixel
    outside the top screen leaves [camera_hack_state] as it was, [tx] and
    [ty] included, so the next tick takes its mouse delta from the same
    [tx - lastX] and [ty - lastY], provided that no touch is pressed or that
    the pixel [TouchMoved] hands on to [TouchPressed] (the moved pixel,
    clipped to the touch screen when it is outside the touch region) is
    outside the top screen as well. *)
Theorem TouchMoved_outside_top_keeps_camera (r : StereoRenderOption)
  (w : EmuWindow) (x y : Z) :
  grabbed (camera_hack_state w) = true ->
  IsWithinTopScreen (framebuffer_layout w) x y = None ->
  touch_pressed (touch_state w) = false \/
  IsWithinTopScreen (framebuffer_layout w)
    (fst (clip_if_outside r (framebuffer_layout w) x y))
    (snd (clip_if_outside r (framebuffer_layout w) x y)) = None ->
  let c' := camera_hack_state (TouchMoved r w x y) in
  c' = camera_hack_state w /\
  tx c' = tx (camera_hack_state w) /\
  ty c' = ty (camera_hack_state w) /\
  (tx c' - lastX c' = tx (camera_hack_state w) - lastX (camera_hack_state w))%Q
  /\
  (ty c' - lastY c' = ty (camera_hack_state w) - lastY (camera_hack_state w))%Q.
Proof.
  intros Hg Htop Hfwd.
  assert (E : camera_hack_state (TouchMoved r w x y) = camera_hack_state w).
  { unfold TouchMoved. rewrite Hg, Htop.
    destruct (touch_pressed (touch_state w)) eqn:Hp; cbn [negb].
    - destruct Hfwd as [Hfwd | Hfwd]; [discriminate|].
      apply TouchPressed_outside_top_camera. exact Hfwd.
    - reflexivity. }
  cbv zeta. rewrite E. repeat split; reflexivity.
Qed.

Lemma TouchMoved_outside_top_keeps_camera_witness :
  let w := fst (TouchPressed Off (Scenario.window (Scenario.stacked_layout true))
                             5 5) in
  let c' := camera_hack_state (TouchMoved Off w 200 360) in
  c' = camera_hack_state w /\
  tx c' = tx (camera_hack_state w) /\
  ty c' = ty (camera_hack_state w) /\
  (tx c' - lastX c' = tx (camera_hack_state w) - lastX (camera_hack_state w))%Q
  /\
  (ty c' - lastY c' = ty (camera_hack_state w) - lastY (camera_hack_state w))%Q.
Proof.
  apply (TouchMoved_outside_top_keeps_camera Off
           (fst (TouchPressed Off
                   (Scenario.window (Scenario.stacked_layout true)) 5 5))
           200 360).
  - reflexivity.
  - reflexivity.
  - left. reflexivity.
Defined.

(** C10 fails as stated.  In [pressed_then_grabbed] (SideBySide over
    [side_layout]) the camera is grabbed with [tx = ty = 5] and a touch is
    pressed.  The pixel (500, 100) is outside the top screen and outside the
    touch region; [TouchMoved] clips it to (200, 100), which is inside the
    top screen, and the call of [TouchPressed] overwrites [tx] and [ty]. *)
Lemma TouchMoved_outside_top_overwrites :
  let w := Scenario.pressed_then_grabbed in
  grabbed (camera_hack_state w) = true /\
  tx (camera_hack_state w) = 5%Q /\ ty (camera_hack_state w) = 5%Q /\
  IsWithinTopScreen (framebuffer_layout w) 500 100 = None /\
  clip_if_outside SideBySide (framebuffer_layout w) 500 100 = (200, 100) /\
  tx (camera_hack_state (TouchMoved SideBySide w 500 100)) = 200%Q /\
  ty (camera_hack_state (TouchMoved SideBySide w 500 100)) = 100%Q /\
  ~ (tx (camera_hack_state (TouchMoved SideBySide w 500 100))
     == tx (camera_hack_state w))%Q /\
  ~ (ty (camera_hack_state (TouchMoved SideBySide w 500 100))
     == ty (camera_hack_state w))%Q.
Proof.
  cbv zeta.
  repeat (split; [reflexivity|]).
  split; vm_compute; discriminate.
Qed.

End FrontendSpec.

(** ** The free-camera hack *)

Module CameraSpec.

Import Settings Layout Frontend.

Local Open Scope Q_scope.

(** Case analysis on the comparisons of the source and on [Qmin], [Qmax]. *)
Ltac qcases :=
  repeat match goal with
  | |- context [Qltb ?a ?b] =>
      let E := fresh "E" in
      destruct (Qltb a b) eqn:E;
      [apply Qltb_true in E | apply Qltb_false in E]
  end.

Ltac minmax_cases :=
  repeat match goal with
  | |- context [Qmin ?a ?b] =>
      let H := fresh "H" in let K := fresh "K" in
      destruct (Q.min_spec a b) as [[H K]|[H K]]; rewrite K in *
  | |- context [Qmax ?a ?b] =>
      let H := fresh "H" in let K := fresh "K" in
      destruct (Q.max_spec a b) as [[H K]|[H K]]; rewrite K in *
  end.

(** [clamp] is the usual clamp when the bounds are in order. *)
Lemma clamp_spec (v lo hi : Q) :
  lo <= hi -> clamp v lo hi == Qmax lo (Qmin hi v).
Proof.
  intro Hle. unfold clamp, std_min, std_max.
  destruct (Qltb v lo) eqn:E1;
    [apply Qltb_true in E1 | apply Qltb_false in E1];
    qcases; minmax_cases; lra.
Qed.

Lemma keyMoveSpeedCap_pos (b : Buttons) : 0 < keyMoveSpeedCap b.
Proof. unfold keyMoveSpeedCap. destruct (isShiftPressed b); reflexivity. Qed.

(** The cap is [keyMoveSpeed], times [keyMoveShiftMult] with the boost. *)
Lemma keyMoveSpeedCap_value (b : Buttons) :
  keyMoveSpeedCap b == (if isShiftPressed b then 50 else 10).
Proof. unfold keyMoveSpeedCap. destruct (isShiftPressed b); reflexivity. Qed.

Lemma keyMoveVelocity_fifth (b : Buttons) :
  keyMoveVelocity b == keyMoveSpeedCap b / 5.
Proof. unfold keyMoveVelocity, keyMoveVelocityMult. field. Qed.

Lemma clampRange_spec (b : Buttons) (v : Q) :
  clampRange v (keyMoveSpeedCap b)
  == Qmax (- keyMoveSpeedCap b) (Qmin (keyMoveSpeedCap b) v).
Proof.
  unfold clampRange. apply clamp_spec.
  pose proof (keyMoveSpeedCap_pos b). lra.
Qed.

(** One more step of acceleration in the closed form: from [- min A cap]
    downwards, from [min A cap] upwards. *)
Lemma accelerate_down (cap step A v : Q) :
  0 < cap -> 0 < step -> 0 <= A ->
  v == - Qmin A cap ->
  Qmax (- cap) (Qmin cap (v - step)) == - Qmin (A + step) cap.
Proof.
  intros Hc Hs HA Hv.
  destruct (Q.min_spec A cap) as [[H1 K1]|[H1 K1]]; rewrite K1 in Hv;
    minmax_cases; lra.
Qed.

Lemma accelerate_up (cap step A v : Q) :
  0 < cap -> 0 < step -> 0 <= A ->
  v == Qmin A cap ->
  Qmax (- cap) (Qmin cap (v + step)) == Qmin (A + step) cap.
Proof.
  intros Hc Hs HA Hv.
  destruct (Q.min_spec A cap) as [[H1 K1]|[H1 K1]]; rewrite K1 in Hv;
    minmax_cases; lra.
Qed.

Lemma fifth_pos (b : Buttons) : 0 < keyMoveSpeedCap b / 5.
Proof.
  apply Qlt_shift_div_l; [reflexivity|].
  pose proof (keyMoveSpeedCap_pos b). lra.
Qed.

Lemma inject_succ (n : nat) :
  inject_Z (Z.of_nat (S n)) == inject_Z (Z.of_nat n) + 1.
Proof.
  rewrite Nat2Z.inj_succ. unfold Z.succ. rewrite inject_Z_plus. reflexivity.
Qed.

Lemma inject_nat_nonneg (n : nat) : 0 <= inject_Z (Z.of_nat n).
Proof.
  change 0 with (inject_Z 0). rewrite <- Zle_Qle. apply Nat2Z.is_nonneg.
Qed.

Section Ticks.

Variables sqrt sin cos : Q -> Q.

(** A tick updates each axis by its own block, whatever else it does. *)
Lemma tick_speed (a : Axis) (b : Buttons) (input : VideoCore.RenderHacksInput)
  (o : Q) (w : EmuWindow) :
  speed a (fst (UpdateCameraHack sqrt sin cos b input o w))
  = move_axis b (key_neg a b) (key_pos a b) (speed a w).
Proof. destruct a; reflexivity. Qed.

Lemma hold_neg_tick (a : Axis) (b : Buttons)
  (input : VideoCore.RenderHacksInput) (o : Q) (w : EmuWindow) :
  key_neg a b = true ->
  speed a (fst (UpdateCameraHack sqrt sin cos b input o w))
  == Qmax (- keyMoveSpeedCap b)
          (Qmin (keyMoveSpeedCap b) (speed a w - keyMoveSpeedCap b / 5)).
Proof.
  intro Hn. rewrite tick_speed, Hn. unfold move_axis.
  rewrite clampRange_spec, keyMoveVelocity_fifth. reflexivity.
Qed.

Lemma hold_pos_tick (a : Axis) (b : Buttons)
  (input : VideoCore.RenderHacksInput) (o : Q) (w : EmuWindow) :
  key_neg a b = false -> key_pos a b = true ->
  speed a (fst (UpdateCameraHack sqrt sin cos b input o w))
  == Qmax (- keyMoveSpeedCap b)
          (Qmin (keyMoveSpeedCap b) (speed a w + keyMoveSpeedCap b / 5)).
Proof.
  intros Hn Hp. rewrite tick_speed, Hn, Hp. unfold move_axis.
  rewrite clampRange_spec, keyMoveVelocity_fifth. reflexivity.
Qed.

Lemma drag_tick (a : Axis) (b : Buttons)
  (input : VideoCore.RenderHacksInput) (o : Q) (w : EmuWindow) :
  key_neg a b = false -> key_pos a b = false ->
  (Qabs (speed a w * 0.8) < 0.01 ->
   speed a (fst (UpdateCameraHack sqrt sin cos b input o w)) = 0) /\
  (0.01 <= Qabs (speed a w * 0.8) ->
   speed a (fst (UpdateCameraHack sqrt sin cos b input o w))
   = speed a w * 0.8).
Proof.
  intros Hn Hp. rewrite tick_speed, Hn, Hp. unfold move_axis.
  unfold keyMoveDrag, keyMoveLowSpeedCap.
  split; intro H.
  - apply Qltb_true in H. rewrite H. reflexivity.
  - apply Qltb_false in H. rewrite H. reflexivity.
Qed.

(** Closed form of the velocity while the first key of the axis is held. *)
Lemma hold_neg_ticks (a : Axis) (b : Buttons) :
  key_neg a b = true ->
  forall (env : list (VideoCore.RenderHacksInput * Q)) (w : EmuWindow) (A : Q),
    0 <= A ->
    speed a w == - Qmin A (keyMoveSpeedCap b) ->
    speed a (run_ticks sqrt sin cos b env w)
    == - Qmin (A + inject_Z (Z.of_nat (length env)) * (keyMoveSpeedCap b / 5))
              (keyMoveSpeedCap b).
Proof.
  intro Hn.
  pose proof (keyMoveSpeedCap_pos b) as Hc.
  pose proof (fifth_pos b) as Hs.
  induction env as [|[input o] env IH]; intros w A HA Hv.
  - cbn [run_ticks length Z.of_nat]. rewrite Hv.
    setoid_replace (A + inject_Z 0 * (keyMoveSpeedCap b / 5)) with A by ring.
    reflexivity.
  - cbn [run_ticks length].
    rewrite (IH _ (A + keyMoveSpeedCap b / 5)).
    + rewrite inject_succ.
      setoid_replace (A + keyMoveSpeedCap b / 5
                      + inject_Z (Z.of_nat (length env))
                        * (keyMoveSpeedCap b / 5))
        with (A + (inject_Z (Z.of_nat (length env)) + 1)
                  * (keyMoveSpeedCap b / 5)) by ring.
      reflexivity.
    + lra.
    + rewrite hold_neg_tick by exact Hn.
      apply accelerate_down; assumption.
Qed.

(** Closed form of the velocity while only the second key is held. *)
Lemma hold_pos_ticks (a : Axis) (b : Buttons) :
  key_neg a b = false -> key_pos a b = true ->
  forall (env : list (VideoCore.RenderHacksInput * Q)) (w : EmuWindow) (A : Q),
    0 <= A ->
    speed a w == Qmin A (keyMoveSpeedCap b) ->
    speed a (run_ticks sqrt sin cos b env w)
    == Qmin (A + inject_Z (Z.of_nat (length env)) * (keyMoveSpeedCap b / 5))
            (keyMoveSpeedCap b).
Proof.
  intros Hn Hp.
  pose proof (keyMoveSpeedCap_pos b) as Hc.
  pose proof (fifth_pos b) as Hs.
  induction env as [|[input o] env IH]; intros w A HA Hv.
  - cbn [run_ticks length Z.of_nat]. rewrite Hv.
    setoid_replace (A + inject_Z 0 * (keyMoveSpeedCap b / 5)) with A by ring.
    reflexivity.
  - cbn [run_ticks length].
    rewrite (IH _ (A + keyMoveSpeedCap b / 5)).
    + rewrite inject_succ.
      setoid_replace (A + keyMoveSpeedCap b / 5
                      + inject_Z (Z.of_nat (length env))
                        * (keyMoveSpeedCap b / 5))
        with (A + (inject_Z (Z.of_nat (length env)) + 1)
                  * (keyMoveSpeedCap b / 5)) by ring.
      reflexivity.
    + lra.
    + rewrite hold_pos_tick by assumption.
      apply accelerate_up; assumption.
Qed.

(** From rest, with exactly one key of the axis held for [length env]
    ticks, the magnitude of the velocity is [min (n * cap / 5) cap]. *)
Lemma hold_ticks_magnitude (a : Axis) (b : Buttons)
  (env : list (VideoCore.RenderHacksInput * Q)) (w : EmuWindow) :
  speed a w == 0 ->
  xorb (key_neg a b) (key_pos a b) = true ->
  Qabs (speed a (run_ticks sqrt sin cos b env w))
  == Qmin (inject_Z (Z.of_nat (length env)) * (keyMoveSpeedCap b / 5))
          (keyMoveSpeedCap b).
Proof.
  intros H0 Hx.
  pose proof (keyMoveSpeedCap_pos b) as Hc.
  pose proof (fifth_pos b) as Hs.
  pose proof (inject_nat_nonneg (length env)) as Hn.
  assert (Hmin0 : Qmin 0 (keyMoveSpeedCap b) == 0)
    by (apply Q.min_l; lra).
  assert (Hpos : 0 <= Qmin (0 + inject_Z (Z.of_nat (length env))
                                * (keyMoveSpeedCap b / 5))
                           (keyMoveSpeedCap b)).
  { apply Q.min_glb; [|lra].
    setoid_replace (0 + inject_Z (Z.of_nat (length env))
                        * (keyMoveSpeedCap b / 5))
      with (inject_Z (Z.of_nat (length env)) * (keyMoveSpeedCap b / 5))
      by ring.
    apply Qmult_le_0_compat; lra. }
  assert (Hform : Qmin (0 + inject_Z (Z.of_nat (length env))
                            * (keyMoveSpeedCap b / 5)) (keyMoveSpeedCap b)
                  == Qmin (inject_Z (Z.of_nat (length env))
                           * (keyMoveSpeedCap b / 5)) (keyMoveSpeedCap b)).
  { apply Q.min_compat; [ring | reflexivity]. }
  destruct (key_neg a b) eqn:Hneg.
  - rewrite (hold_neg_ticks a b Hneg env w 0);
      [| lra | rewrite Hmin0, H0; reflexivity].
    rewrite Qabs_opp, Qabs_pos by exact Hpos. exact Hform.
  - destruct (key_pos a b) eqn:Hp; [|discriminate].
    rewrite (hold_pos_ticks a b Hneg Hp env w 0);
      [| lra | rewrite Hmin0, H0; reflexivity].
    rewrite Qabs_pos by exact Hpos. exact Hform.
Qed.

(** C3.  For each movement axis and either state of the boost: while one
    directional key of the axis is held, a tick adds the step [cap / 5]
    towards that key's direction and clamps the velocity into [-cap, cap];
    from velocity 0, after [n] such ticks the magnitude is
    [min (n * cap / 5) cap], so it never decreases, never exceeds the cap and
    is exactly the cap from the fifth tick on; while neither key is held,
    a tick multiplies the velocity by 0.8 and stores exactly 0 when the
    product's magnitude is below 0.01. *)
Theorem keyMovement_integrator (a : Axis) (b : Buttons) :
  let cap := keyMoveSpeedCap b in
  let tick := UpdateCameraHack sqrt sin cos b in
  (forall input o w,
      (key_neg a b = true -> key_pos a b = false ->
       speed a (fst (tick input o w))
       == Qmax (- cap) (Qmin cap (speed a w - cap / 5))) /\
      (key_neg a b = false -> key_pos a b = true ->
       speed a (fst (tick input o w))
       == Qmax (- cap) (Qmin cap (speed a w + cap / 5)))) /\
  (forall env w,
      speed a w == 0 ->
      xorb (key_neg a b) (key_pos a b) = true ->
      let v := speed a (run_ticks sqrt sin cos b env w) in
      Qabs v == Qmin (inject_Z (Z.of_nat (length env)) * (cap / 5)) cap /\
      Qabs v <= cap /\
      ((5 <= length env)%nat -> Qabs v == cap) /\
      (forall e,
          Qabs v
          <= Qabs (speed a (run_ticks sqrt sin cos b (env ++ [e]) w)))) /\
  (forall input o w,
      key_neg a b = false -> key_pos a b = false ->
      (Qabs (speed a w * 0.8) < 0.01 ->
       speed a (fst (tick input o w)) = 0) /\
      (0.01 <= Qabs (speed a w * 0.8) ->
       speed a (fst (tick input o w)) = speed a w * 0.8)).
Proof.
  cbv zeta.
  pose proof (keyMoveSpeedCap_pos b) as Hc.
  pose proof (fifth_pos b) as Hs.
  split; [|split].
  - intros input o w. split.
    + intros Hn _. apply hold_neg_tick. exact Hn.
    + intros Hn Hp. apply hold_pos_tick; assumption.
  - intros env w H0 Hx.
    pose proof (hold_ticks_magnitude a b env w H0 Hx) as Hmag.
    split; [exact Hmag|]. split; [|split].
    + rewrite Hmag. apply Q.le_min_r.
    + intro H5. rewrite Hmag. apply Q.min_r.
      assert (H5q : 5 <= inject_Z (Z.of_nat (length env))).
      { change 5 with (inject_Z 5). rewrite <- Zle_Qle. lia. }
      setoid_replace (keyMoveSpeedCap b)
        with (5 * (keyMoveSpeedCap b / 5)) at 1 by field.
      apply Qmult_le_compat_r; lra.
    + intro e.
      rewrite Hmag, (hold_ticks_magnitude a b (env ++ [e]) w H0 Hx).
      apply Q.min_le_compat_r.
      apply Qmult_le_compat_r; [|lra].
      rewrite <- Zle_Qle. rewrite length_app. cbn [length]. lia.
  - intros input o w Hn Hp. apply drag_tick; assumption.
Qed.

End Ticks.

Lemma keyMovement_integrator_witness :
  let b := Scenario.only_W in
  let w := Scenario.window (Scenario.stacked_layout true) in
  let env := Scenario.five_ticks
               (VideoCore.MkRenderHacksInput Common.mat4_identity false) in
  Qabs (speed Forward (run_ticks (fun q => q) (fun q => q) (fun q => q)
                                 b env w))
  == keyMoveSpeedCap b.
Proof.
  cbv zeta.
  pose proof
    (proj1 (proj2 (keyMovement_integrator
                     (fun q => q) (fun q => q) (fun q => q)
                     Forward Scenario.only_W))
       (Scenario.five_ticks
          (VideoCore.MkRenderHacksInput Common.mat4_identity false))
       (Scenario.window (Scenario.stacked_layout true))) as H.
  cbv zeta in H.
  destruct H as (_ & _ & H5 & _); [reflexivity | reflexivity |].
  apply H5. cbn. lia.
Defined.

Section Publish.

Variables sqrt sin cos : Q -> Q.

(** Every tick calls [SetRenderHacks] once, with the fog flag of the window
    and with either the inverse of the new [worldMatrix] or, when
    [mat4_inverse] returns [NULL], the [view_matrix] of the local as it was
    declared. *)
Lemma UpdateCameraHack_always_publishes (b : Buttons)
  (input : VideoCore.RenderHacksInput) (o : Q) (w : EmuWindow) :
  let w' := fst (UpdateCameraHack sqrt sin cos b input o w) in
  snd (UpdateCameraHack sqrt sin cos b input o w)
  = [VideoCore.MkRenderHacksInput
       (match Common.mat4_inverse (worldMatrix (fps_camera_controller w')) with
        | Some m => m
        | None => VideoCore.view_matrix input
        end)
       (fog_disabled w)].
Proof. reflexivity. Qed.

Lemma translate_step_singular (m : Common.mat4) (up k : Common.vec3) :
  Common.det4 m == 0 -> Common.det4 (translate_step m up k) == 0.
Proof.
  intro H. unfold translate_step. destruct (negb (isZero k)); [|exact H].
  cbv zeta. rewrite CommonSpec.det4_translate. exact H.
Qed.

Lemma rotate_in_place_singular (m : Common.mat4) (angle : Q)
  (axis : Common.vec3) :
  Common.det4 m == 0 ->
  Common.det4 (rotate_in_place sqrt sin cos m angle axis) == 0.
Proof.
  intro H. unfold rotate_in_place.
  destruct (Common.mat4_rotate sqrt sin cos m angle axis) as [r|] eqn:E;
    [|exact H].
  exact (CommonSpec.det4_rotate sqrt sin cos m r angle axis E H).
Qed.

(** Unless the reset key is held, a tick keeps a singular matrix singular. *)
Lemma UpdateCameraHack_keeps_singular (b : Buttons)
  (input : VideoCore.RenderHacksInput) (o : Q) (w : EmuWindow) :
  keyB b = false ->
  Common.det4 (worldMatrix (fps_camera_controller w)) == 0 ->
  Common.det4
    (worldMatrix
       (fps_camera_controller
          (fst (UpdateCameraHack sqrt sin cos b input o w)))) == 0.
Proof.
  intros Hb Hd. unfold UpdateCameraHack. cbv zeta. rewrite Hb.
  cbn [fst fps_camera_controller worldMatrix].
  destruct (negb (isZero _)).
  - apply rotate_in_place_singular, rotate_in_place_singular,
      translate_step_singular. exact Hd.
  - apply translate_step_singular. exact Hd.
Qed.

(** C1, on the code.  For every window whose [worldMatrix] has determinant
    zero, a tick without the reset key leaves the matrix singular,
    [mat4_inverse] returns [NULL], and [SetRenderHacks] is still called
    once: with the [view_matrix] the local [input] had when it was
    declared. *)
Theorem UpdateCameraHack_publishes_singular (b : Buttons)
  (input : VideoCore.RenderHacksInput) (o : Q) (w : EmuWindow) :
  keyB b = false ->
  Common.det4 (worldMatrix (fps_camera_controller w)) == 0 ->
  let r := UpdateCameraHack sqrt sin cos b input o w in
  Common.mat4_inverse (worldMatrix (fps_camera_controller (fst r))) = None /\
  snd r = [VideoCore.MkRenderHacksInput (VideoCore.view_matrix input)
                                        (fog_disabled w)].
Proof.
  intros Hb Hd. cbv zeta.
  assert (Hnone : Common.mat4_inverse
                    (worldMatrix
                       (fps_camera_controller
                          (fst (UpdateCameraHack sqrt sin cos b input o w))))
                  = None).
  { apply CommonSpec.mat4_inverse_None.
    apply UpdateCameraHack_keeps_singular; assumption. }
  split; [exact Hnone|].
  rewrite UpdateCameraHack_always_publishes. cbv zeta.
  rewrite Hnone. reflexivity.
Qed.

(** When a tick sees no mouse movement, the matrix it leaves is the old one
    (or the identity after a reset) translated by [keyMovement] itself. *)
Lemma UpdateCameraHack_translates_by_keyMovement (b : Buttons)
  (input : VideoCore.RenderHacksInput) (w : EmuWindow) :
  tx (camera_hack_state w) = lastX (camera_hack_state w) ->
  ty (camera_hack_state w) = lastY (camera_hack_state w) ->
  mouseMovement (fps_camera_controller w) = (0, 0) ->
  let w' := fst (UpdateCameraHack sqrt sin cos b input 0 w) in
  let m := if keyB b then Common.mat4_identity
           else worldMatrix (fps_camera_controller w) in
  worldMatrix (fps_camera_controller w')
  = if isZero (keyMovement (fps_camera_controller w')) then m
    else Common.mat4_translate m (keyMovement (fps_camera_controller w')).
Proof.
  intros Hx Hy Hm. cbv zeta.
  unfold UpdateCameraHack. cbv zeta. rewrite Hx, Hy, Hm.
  cbn [fst snd fps_camera_controller worldMatrix keyMovement].
  replace (isZero (Common.Vec3 _ _ 0)) with true.
  - cbn [negb]. unfold translate_step.
    destruct (isZero _); reflexivity.
  - symmetry. unfold isZero. cbn [Common.vx Common.vy Common.vz].
    rewrite !andb_true_iff. repeat split; apply Qeq_bool_iff; field.
Qed.

(** C2, on the code.  On [pitched_window] (camera at rest, its up axis
    (0, 0, -1)) with only E held and no mouse movement, the tick sets
    [keyMovement] to (0, 2, 0) and translates [worldMatrix] by that vector, to
    (0, 0, 2); translating by [finalMovement], which is (0, 0, -2) here,
    would have led to (0, 2, 0). *)
Theorem UpdateCameraHack_ignores_finalMovement
  (input : VideoCore.RenderHacksInput) :
  let w := Scenario.pitched_window in
  let w' := fst (UpdateCameraHack sqrt sin cos Scenario.only_E input 0 w) in
  let m := worldMatrix (fps_camera_controller w) in
  let k := keyMovement (fps_camera_controller w') in
  let cameraUp := Common.Vec3 (Common.m1 m) (Common.m5 m) (Common.m9 m) in
  let m' := worldMatrix (fps_camera_controller w') in
  isZero k = false /\
  (Common.vx k == 0 /\ Common.vy k == 2 /\ Common.vz k == 0) /\
  (Common.vx (finalMovement cameraUp k) == 0 /\
   Common.vy (finalMovement cameraUp k) == 0 /\
   Common.vz (finalMovement cameraUp k) == - (2)) /\
  m' = Common.mat4_translate m k /\
  (Common.m12 m' == 0 /\ Common.m13 m' == 0 /\ Common.m14 m' == 2) /\
  (Common.m12 (Common.mat4_translate m (finalMovement cameraUp k)) == 0 /\
   Common.m13 (Common.mat4_translate m (finalMovement cameraUp k)) == 2 /\
   Common.m14 (Common.mat4_translate m (finalMovement cameraUp k)) == 0) /\
  ~ Common.mat4_eq m' (Common.mat4_translate m (finalMovement cameraUp k)).
Proof.
  cbv zeta.
  split; [reflexivity|].
  split; [repeat split; reflexivity|].
  split; [repeat split; reflexivity|].
  split; [reflexivity|].
  split; [repeat split; reflexivity|].
  split; [repeat split; reflexivity|].
  intro H. unfold Common.mat4_eq in H.
  destruct H as (_ & _ & _ & _ & _ & _ & _ & _ & _ & _ & _ & _ & _ & H13 & _).
  vm_compute in H13. discriminate.
Qed.

End Publish.

(** On [singular_window] (all-zero [worldMatrix]) with no key held and no
    mouse movement, the tick publishes the matrix the local was declared
    with: here the marker matrix [sample_matrix]. *)
Lemma UpdateCameraHack_publishes_singular_witness :
  let input := VideoCore.MkRenderHacksInput Scenario.sample_matrix true in
  let r := UpdateCameraHack (fun q => q) (fun q => q) (fun q => q)
             Scenario.no_buttons input 0 Scenario.singular_window in
  Common.mat4_inverse (worldMatrix (fps_camera_controller (fst r))) = None /\
  snd r = [VideoCore.MkRenderHacksInput Scenario.sample_matrix false].
Proof.
  apply (UpdateCameraHack_publishes_singular
           (fun q => q) (fun q => q) (fun q => q) Scenario.no_buttons
           (VideoCore.MkRenderHacksInput Scenario.sample_matrix true) 0
           Scenario.singular_window);
    reflexivity.
Defined.

End CameraSpec.

(** ** Algebra of the matrix routines *)

Module MatrixAlgebra.

Import Common.

Local Open Scope Q_scope.

Ltac mat4_entries := unfold mat4_eq; cbn; repeat split.

(** [mat4_multiply] with [mat4_identity] on either side gives the other
    argument back. *)
Theorem mat4_multiply_identity_laws (a : mat4) :
  mat4_eq (mat4_multiply mat4_identity a) a /\
  mat4_eq (mat4_multiply a mat4_identity) a.
Proof. split; destruct a; mat4_entries; ring. Qed.

(** [mat4_translate] multiplies [mat] by the translation matrix of [v]: the
    identity translated by [v]. *)
Theorem mat4_translate_as_multiply (mat : mat4) (v : vec3) :
  mat4_eq (mat4_translate mat v)
          (mat4_multiply mat (mat4_translate mat4_identity v)).
Proof. destruct mat, v. mat4_entries; ring. Qed.

Section Rotation.

Variables sqrt sin cos : Q -> Q.

(** [mat4_rotate] fails exactly when the length [sqrt] gives for the axis is
    zero, whatever the matrix.  When it succeeds it leaves elements 12..15
    alone and multiplies [mat] by the rotation it builds: by the matrix the
    same call gives on the identity. *)
Theorem mat4_rotate_as_multiply (mat : mat4) (angle : Q) (v : vec3) :
  (mat4_rotate sqrt sin cos mat angle v = None <->
   sqrt (vx v * vx v + vy v * vy v + vz v * vz v) == 0) /\
  (forall rotated,
      mat4_rotate sqrt sin cos mat angle v = Some rotated ->
      m12 rotated = m12 mat /\ m13 rotated = m13 mat /\
      m14 rotated = m14 mat /\ m15 rotated = m15 mat /\
      exists rotation,
        mat4_rotate sqrt sin cos mat4_identity angle v = Some rotation /\
        mat4_eq rotated (mat4_multiply mat rotation)).
Proof.
  unfold mat4_rotate. cbv zeta.
  destruct (Qeq_bool _ 0) eqn:E.
  - apply Qeq_bool_iff in E. split.
    + split; [intros _; exact E | reflexivity].
    + intros rotated H. discriminate.
  - apply Qeq_bool_neq in E.
    destruct (negb _); (split; [split; [discriminate | intro H; contradiction]|]);
      intros rotated H; injection H as <-;
      (repeat (split; [reflexivity|]));
      (eexists; split; [reflexivity|]);
      destruct mat; mat4_entries; ring.
Qed.

(** A rotation by an angle whose sine is 0 and whose cosine is 1 leaves the
    matrix as it is. *)
Theorem mat4_rotate_zero_angle (mat rotated : mat4) (angle : Q) (v : vec3) :
  sin angle == 0 -> cos angle == 1 ->
  mat4_rotate sqrt sin cos mat angle v = Some rotated ->
  mat4_eq rotated mat.
Proof.
  intros Hs Hc. unfold mat4_rotate. cbv zeta.
  destruct (Qeq_bool _ 0); [discriminate|].
  destruct (negb _); intro H; injection H as <-; destruct mat;
    mat4_entries; rewrite ?Hs, ?Hc; ring.
Qed.

End Rotation.

Lemma mat4_rotate_as_multiply_witness :
  exists rotated rotation,
    mat4_rotate Scenario.sqrt_at_one Scenario.sin_3_5 Scenario.cos_4_5
                Scenario.sample_matrix 1 (Vec3 1 0 0) = Some rotated /\
    mat4_rotate Scenario.sqrt_at_one Scenario.sin_3_5 Scenario.cos_4_5
                mat4_identity 1 (Vec3 1 0 0) = Some rotation /\
    mat4_eq rotated (mat4_multiply Scenario.sample_matrix rotation).
Proof.
  eexists.
  destruct (proj2 (mat4_rotate_as_multiply
                     Scenario.sqrt_at_one Scenario.sin_3_5 Scenario.cos_4_5
                     Scenario.sample_matrix 1 (Vec3 1 0 0)) _ eq_refl)
    as (_ & _ & _ & _ & rotation & Hr & He).
  exists rotation. split; [reflexivity|]. split; [exact Hr | exact He].
Defined.

Lemma mat4_rotate_zero_angle_witness :
  exists rotated,
    mat4_rotate Scenario.sqrt_at_one Scenario.sin_zero Scenario.cos_zero
                Scenario.sample_matrix 0 (Vec3 0 1 0) = Some rotated /\
    mat4_eq rotated Scenario.sample_matrix.
Proof.
  eexists. split; [reflexivity|].
  apply (mat4_rotate_zero_angle
           Scenario.sqrt_at_one Scenario.sin_zero Scenario.cos_zero
           Scenario.sample_matrix _ 0 (Vec3 0 1 0));
    reflexivity.
Defined.

End MatrixAlgebra.

(** ** Clipping and normalization of touch pixels *)

Module TouchMapping.

Import Settings Layout Frontend FrontendSpec.

Local Open Scope Z_scope.

Lemma sub_one_small (z : Z) : U32.in_range z -> 0 < z -> U32.sub z 1 = z - 1.
Proof.
  intros Hz Hpos. unfold U32.sub. apply wrap_small.
  unfold U32.in_range in *. lia.
Qed.

(** The halved or plain horizontal bounds of the touch region's first
    rectangle. *)
Lemma clip_bounds (r : StereoRenderOption) (layout : FramebufferLayout)
  (x y : Z) :
  Layout.in_range layout ->
  Scenario.touch_region_nonempty r layout ->
  let bs := bottom_screen layout in
  let x' := fst (ClipToTouchScreen r layout x y) in
  let y' := snd (ClipToTouchScreen r layout x y) in
  top bs <= y' < bottom bs /\
  match r with
  | SideBySide => left bs / 2 <= x' < right bs / 2
  | _ => left bs <= x' < right bs
  end.
Proof.
  intros Hr [Hy Hx]. cbv zeta.
  destruct Hr as (Hw & _ & (Hl & Ht & Hri & Hb) & _).
  pose proof (half_bounds _ Hl) as Bl.
  pose proof (half_bounds _ Hri) as Br.
  assert (Hb1 : U32.sub (bottom (bottom_screen layout)) 1
                = bottom (bottom_screen layout) - 1).
  { apply sub_one_small; [exact Hb|]. unfold U32.in_range in Ht. lia. }
  unfold ClipToTouchScreen. cbv zeta. cbn [fst snd]. rewrite Hb1.
  set (x0 := undo_stereo_offset r layout x).
  destruct r.
  - assert (Hr1 : U32.sub (right (bottom_screen layout)) 1
                  = right (bottom_screen layout) - 1).
    { apply sub_one_small; [exact Hri|]. unfold U32.in_range in Hl. lia. }
    rewrite Hr1. lia.
  - assert (Hr1 : U32.sub (right (bottom_screen layout) / 2) 1
                  = right (bottom_screen layout) / 2 - 1).
    { apply sub_one_small; [|lia]. unfold U32.in_range, U32.modulus. lia. }
    rewrite Hr1. lia.
  - assert (Hr1 : U32.sub (right (bottom_screen layout)) 1
                  = right (bottom_screen layout) - 1).
    { apply sub_one_small; [exact Hri|]. unfold U32.in_range in Hl. lia. }
    rewrite Hr1. lia.
Qed.

(** A pixel inside the first rectangle of the touch region is accepted. *)
Lemma first_rectangle_accepted (r : StereoRenderOption)
  (layout : FramebufferLayout) (x y : Z) :
  top (bottom_screen layout) <= y < bottom (bottom_screen layout) ->
  match r with
  | SideBySide =>
      left (bottom_screen layout) / 2 <= x < right (bottom_screen layout) / 2
  | _ => left (bottom_screen layout) <= x < right (bottom_screen layout)
  end ->
  IsWithinTouchscreen r layout x y = true.
Proof.
  intros Hy Hx.
  destruct r; unfold IsWithinTouchscreen; cbv zeta; btest; lia.
Qed.

(** Whatever pixel it is given, [ClipToTouchScreen] returns one that
    [IsWithinTouchscreen] accepts, under each stereo option, as long as the
    bottom screen is not empty. *)
Theorem ClipToTouchScreen_within (r : StereoRenderOption)
  (layout : FramebufferLayout) (x y : Z) :
  Layout.in_range layout ->
  Scenario.touch_region_nonempty r layout ->
  IsWithinTouchscreen r layout (fst (ClipToTouchScreen r layout x y))
                      (snd (ClipToTouchScreen r layout x y)) = true.
Proof.
  intros Hr Hn.
  pose proof (clip_bounds r layout x y Hr Hn) as Hb. cbv zeta in Hb.
  destruct Hb as [Hy Hx].
  apply first_rectangle_accepted; assumption.
Qed.

Lemma ClipToTouchScreen_within_witness :
  IsWithinTouchscreen SideBySide Scenario.side_layout
    (fst (ClipToTouchScreen SideBySide Scenario.side_layout 500 100))
    (snd (ClipToTouchScreen SideBySide Scenario.side_layout 500 100)) = true.
Proof.
  apply (ClipToTouchScreen_within SideBySide Scenario.side_layout 500 100).
  - layout_in_range.
  - split; cbn; lia.
Defined.

(** With stereo off, [ClipToTouchScreen] moves each coordinate to the
    nearest one of the bottom screen: a coordinate inside is kept, one before
    the screen becomes its first pixel, one past it becomes its last. *)
Theorem ClipToTouchScreen_nearest (layout : FramebufferLayout) (x y : Z) :
  Layout.in_range layout ->
  Scenario.touch_region_nonempty Off layout ->
  let bs := bottom_screen layout in
  let x' := fst (ClipToTouchScreen Off layout x y) in
  let y' := snd (ClipToTouchScreen Off layout x y) in
  (left bs <= x < right bs -> x' = x) /\
  (x < left bs -> x' = left bs) /\
  (right bs <= x -> x' = right bs - 1) /\
  (top bs <= y < bottom bs -> y' = y) /\
  (y < top bs -> y' = top bs) /\
  (bottom bs <= y -> y' = bottom bs - 1).
Proof.
  intros Hr [Hy Hx]. cbv zeta.
  destruct Hr as (Hw & _ & (Hl & Ht & Hri & Hb) & _).
  unfold ClipToTouchScreen. cbv zeta. cbn [fst snd].
  rewrite !sub_one_small
    by (assumption || (unfold U32.in_range in *; lia)).
  replace (undo_stereo_offset Off layout x) with x
    by (unfold undo_stereo_offset; destruct (_ <=? _); reflexivity).
  repeat split; intros; lia.
Qed.

Lemma ClipToTouchScreen_nearest_witness :
  let layout := Scenario.stacked_layout true in
  fst (ClipToTouchScreen Off layout 10 500) = 40 /\
  snd (ClipToTouchScreen Off layout 10 500) = 479.
Proof.
  cbv zeta.
  assert (Hr : Layout.in_range (Scenario.stacked_layout true))
    by layout_in_range.
  assert (Hn : Scenario.touch_region_nonempty Off
                 (Scenario.stacked_layout true)) by (split; cbn; lia).
  destruct (ClipToTouchScreen_nearest (Scenario.stacked_layout true) 10 500
              Hr Hn) as (_ & Hx & _ & _ & _ & Hy).
  split; [apply Hx | apply Hy]; cbn; lia.
Defined.

Local Open Scope Q_scope.

(** A part of a whole, as a ratio of the two converted to [float]. *)
Lemma ratio_bounds (a b : Z) :
  (0 <= a < b)%Z ->
  0 <= U32.to_float a / U32.to_float b /\
  U32.to_float a / U32.to_float b < 1.
Proof.
  intros [H0 H1]. unfold U32.to_float.
  assert (Hb : 0 < inject_Z b).
  { change 0 with (inject_Z 0). rewrite <- Zlt_Qlt. lia. }
  split.
  - apply Qle_shift_div_l; [exact Hb|].
    setoid_replace (0 * inject_Z b) with (inject_Z 0) by ring.
    rewrite <- Zle_Qle. exact H0.
  - apply Qlt_shift_div_r; [exact Hb|].
    setoid_replace (1 * inject_Z b) with (inject_Z b) by ring.
    rewrite <- Zlt_Qlt. exact H1.
Qed.

(** The two ratios [TouchPressed] computes for a pixel the touch screen
    accepts, before the swap for a layout that is not rotated. *)
Lemma raw_ratio_bounds (r : StereoRenderOption) (layout : FramebufferLayout)
  (x y : Z) :
  Layout.in_range layout ->
  Scenario.stereo_fits r layout ->
  IsWithinTouchscreen r layout x y = true ->
  let bs := bottom_screen layout in
  let x0 := undo_stereo_offset r layout x in
  let nx :=
    match r with
    | SideBySide =>
        U32.to_float (U32.sub x0 (left bs / 2))
        / U32.to_float (U32.sub (right bs / 2) (left bs / 2))
    | _ =>
        U32.to_float (U32.sub x0 (left bs))
        / U32.to_float (U32.sub (right bs) (left bs))
    end in
  let ny :=
    U32.to_float (U32.sub y (top bs))
    / U32.to_float (U32.sub (bottom bs) (top bs)) in
  (0 <= nx /\ nx < 1) /\ (0 <= ny /\ ny < 1).
Proof.
  intros Hr Hfit Hacc. cbv zeta.
  pose proof Hr as (Hw & _ & (Hl & Ht & Hri & Hb) & _).
  pose proof (half_bounds _ Hl) as Bl.
  pose proof (half_bounds _ Hri) as Br.
  pose proof (half_bounds _ Hw) as Bw.
  unfold U32.in_range, U32.modulus in *.
  assert (Hy : (top (bottom_screen layout) <= y
                < bottom (bottom_screen layout))%Z).
  { destruct r; unfold IsWithinTouchscreen in Hacc; cbv zeta in Hacc;
      btest_in Hacc; lia. }
  split.
  - destruct r; cbn in Hfit; [| |contradiction].
    + unfold IsWithinTouchscreen in Hacc. cbv zeta in Hacc. btest_in Hacc.
      replace (undo_stereo_offset Off layout x) with x
        by (unfold undo_stereo_offset; destruct (_ <=? _)%Z; reflexivity).
      unfold U32.sub.
      rewrite !wrap_small by (unfold U32.in_range, U32.modulus; lia).
      apply ratio_bounds. lia.
    + apply IsWithinTouchscreen_SideBySide_iff in Hacc; [|exact Hr].
      destruct Hacc as [_ [Hx|Hx]].
      * replace (undo_stereo_offset SideBySide layout x) with x.
        -- unfold U32.sub.
           rewrite !wrap_small by (unfold U32.in_range, U32.modulus; lia).
           apply ratio_bounds. lia.
        -- unfold undo_stereo_offset.
           assert (right (bottom_screen layout) / 2 <= width layout / 2)%Z
             by (apply Z.div_le_mono; lia).
           replace (width layout / 2 <=? x)%Z with false
             by (symmetry; apply Z.leb_gt; lia).
           reflexivity.
      * replace (undo_stereo_offset SideBySide layout x)
          with (x - width layout / 2)%Z.
        -- unfold U32.sub.
           rewrite !wrap_small by (unfold U32.in_range, U32.modulus; lia).
           apply ratio_bounds. lia.
        -- unfold undo_stereo_offset.
           replace (width layout / 2 <=? x)%Z with true
             by (symmetry; apply Z.leb_le; lia).
           unfold U32.sub. symmetry. apply wrap_small.
           unfold U32.in_range, U32.modulus. lia.
  - unfold U32.sub.
    rewrite !wrap_small by (unfold U32.in_range, U32.modulus; lia).
    apply ratio_bounds. lia.
Qed.

(** What a press stores once both region tests have let it through. *)
Lemma accepted_press_bounds (r : StereoRenderOption) (w : EmuWindow)
  (x y : Z) :
  Layout.in_range (framebuffer_layout w) ->
  Scenario.stereo_fits r (framebuffer_layout w) ->
  IsWithinTopScreen (framebuffer_layout w) x y = None ->
  IsWithinTouchscreen r (framebuffer_layout w) x y = true ->
  let t := touch_state (fst (TouchPressed r w x y)) in
  touch_pressed t = true /\
  0 <= touch_x t /\ touch_x t <= 1 /\ 0 <= touch_y t /\ touch_y t <= 1.
Proof.
  intros Hr Hfit Htop Hacc. cbv zeta. unfold TouchPressed.
  rewrite Htop, Hacc. cbn [negb].
  pose proof (raw_ratio_bounds r (framebuffer_layout w) x y Hr Hfit Hacc)
    as Hb.
  cbv zeta in Hb. destruct Hb as [[Hx0 Hx1] [Hy0 Hy1]].
  destruct (is_rotated (framebuffer_layout w)); cbn [negb];
    destruct r; cbn; (split; [reflexivity|]); lra.
Qed.

(** Under stereo Off, and under SideBySide with the bottom screen inside the
    framebuffer, every press [TouchPressed] accepts stores coordinates in
    the unit square, for either value of [is_rotated]. *)
Theorem TouchPressed_normalized (r : StereoRenderOption) (w : EmuWindow)
  (x y : Z) :
  Layout.in_range (framebuffer_layout w) ->
  Scenario.stereo_fits r (framebuffer_layout w) ->
  snd (TouchPressed r w x y) = Some true ->
  let t := touch_state (fst (TouchPressed r w x y)) in
  touch_pressed t = true /\
  0 <= touch_x t /\ touch_x t <= 1 /\ 0 <= touch_y t /\ touch_y t <= 1.
Proof.
  intros Hr Hfit Hret.
  assert (Htop : IsWithinTopScreen (framebuffer_layout w) x y = None).
  { revert Hret. unfold TouchPressed.
    destruct (IsWithinTopScreen (framebuffer_layout w) x y) as [[nx ny]|];
      [discriminate | reflexivity]. }
  assert (Hacc : IsWithinTouchscreen r (framebuffer_layout w) x y = true).
  { revert Hret. unfold TouchPressed. rewrite Htop.
    destruct (IsWithinTouchscreen r (framebuffer_layout w) x y);
      [reflexivity | discriminate]. }
  apply accepted_press_bounds; assumption.
Qed.

Lemma TouchPressed_normalized_witness :
  let w := Scenario.window Scenario.stereo_layout in
  let t := touch_state (fst (TouchPressed SideBySide w 600 500)) in
  touch_pressed t = true /\
  0 <= touch_x t /\ touch_x t <= 1 /\ 0 <= touch_y t /\ touch_y t <= 1.
Proof.
  apply (TouchPressed_normalized SideBySide
           (Scenario.window Scenario.stereo_layout) 600 500).
  - layout_in_range.
  - cbn. lia.
  - reflexivity.
Defined.

(** The first step of [TouchMoved] writes the camera grab state only. *)
Lemma TouchMoved_as_press (r : StereoRenderOption) (w : EmuWindow) (x y : Z) :
  touch_pressed (touch_state w) = true ->
  exists w1,
    framebuffer_layout w1 = framebuffer_layout w /\
    touch_state w1 = touch_state w /\
    TouchMoved r w x y
    = fst (TouchPressed r w1
             (fst (clip_if_outside r (framebuffer_layout w) x y))
             (snd (clip_if_outside r (framebuffer_layout w) x y))).
Proof.
  intro Hp. unfold TouchMoved. cbv zeta.
  destruct (grabbed (camera_hack_state w)).
  - destruct (IsWithinTopScreen (framebuffer_layout w) x y) as [[nx ny]|].
    + eexists. split; [|split]; [| |cbn [touch_state set_camera_hack_state];
        rewrite Hp; reflexivity]; reflexivity.
    + exists w. rewrite Hp. repeat split; reflexivity.
  - exists w. rewrite Hp. repeat split; reflexivity.
Qed.

(** Dragging cannot lose a touch.  Under stereo Off, or SideBySide with the
    bottom screen inside the framebuffer, over a layout whose top screen
    shares no pixel with the touch region: while a touch is pressed,
    [TouchMoved] to any pixel whatever leaves a touch pressed, with
    coordinates in the unit square. *)
Theorem TouchMoved_keeps_touch (r : StereoRenderOption) (w : EmuWindow)
  (x y : Z) :
  Layout.in_range (framebuffer_layout w) ->
  Scenario.stereo_fits r (framebuffer_layout w) ->
  Scenario.touch_region_nonempty r (framebuffer_layout w) ->
  Scenario.screens_disjoint r (framebuffer_layout w) ->
  touch_pressed (touch_state w) = true ->
  let t := touch_state (TouchMoved r w x y) in
  touch_pressed t = true /\
  0 <= touch_x t /\ touch_x t <= 1 /\ 0 <= touch_y t /\ touch_y t <= 1.
Proof.
  intros Hr Hfit Hn Hdis Hp.
  destruct (TouchMoved_as_press r w x y Hp) as (w1 & Hl & _ & Heq).
  cbv zeta. rewrite Heq.
  assert (Hacc : IsWithinTouchscreen r (framebuffer_layout w)
                   (fst (clip_if_outside r (framebuffer_layout w) x y))
                   (snd (clip_if_outside r (framebuffer_layout w) x y))
                 = true).
  { unfold clip_if_outside.
    destruct (IsWithinTouchscreen r (framebuffer_layout w) x y) eqn:E;
      cbn [negb fst snd].
    - exact E.
    - pose proof (clip_bounds r (framebuffer_layout w) x y Hr Hn) as Hb.
      cbv zeta in Hb. destruct Hb as [Hy Hx].
      apply first_rectangle_accepted; assumption. }
  apply accepted_press_bounds; rewrite ?Hl; try assumption.
  apply Hdis. exact Hacc.
Qed.

Lemma stacked_screens_disjoint :
  Scenario.screens_disjoint Off (Scenario.stacked_layout true).
Proof.
  intros x y H. unfold IsWithinTouchscreen in H. cbv zeta in H. cbn in H.
  btest_in H. unfold IsWithinTopScreen. cbn.
  replace ((0 <=? x) && (x <? 400) && (0 <=? y) && (y <? 240))%bool
    with false; [reflexivity|].
  symmetry. btest. lia.
Qed.

Lemma TouchMoved_keeps_touch_witness :
  let w := fst (TouchPressed Off
                  (Scenario.window (Scenario.stacked_layout true)) 200 360) in
  let t := touch_state (TouchMoved Off w 1000 20) in
  touch_pressed t = true /\
  0 <= touch_x t /\ touch_x t <= 1 /\ 0 <= touch_y t /\ touch_y t <= 1.
Proof.
  apply (TouchMoved_keeps_touch Off
           (fst (TouchPressed Off
                   (Scenario.window (Scenario.stacked_layout true)) 200 360))
           1000 20).
  - layout_in_range.
  - exact I.
  - split; cbn; lia.
  - exact stacked_screens_disjoint.
  - reflexivity.
Defined.

End TouchMapping.

(** ** Ticks of the camera hack *)

Module CameraTicks.

Import Settings Layout Frontend CameraSpec.

Local Open Scope Q_scope.

(** With [mouseLookDrag = 0] the smoothed mouse movement always falls under
    [mouseMoveLowSpeedCap]. *)
Lemma mouse_snap (q : Q) :
  Qltb (Qabs (q * mouseLookDrag)) mouseMoveLowSpeedCap = true.
Proof.
  apply Qltb_true. unfold mouseLookDrag, mouseMoveLowSpeedCap.
  setoid_replace (q * 0) with 0 by ring. reflexivity.
Qed.

Lemma Qabs_bound (x y : Q) : - y <= x -> x <= y -> Qabs x <= y.
Proof. intros H1 H2. apply Qabs_Qle_condition. split; assumption. Qed.

Lemma Qabs_drag (v : Q) : Qabs (v * keyMoveDrag) == Qabs v * keyMoveDrag.
Proof. rewrite Qabs_Qmult. reflexivity. Qed.

(** The three cases of [move_axis] as bounds on the magnitude. *)
Lemma move_axis_bounds (b : Buttons) (neg pos : bool) (v : Q) :
  (orb neg pos = true -> Qabs (move_axis b neg pos v) <= keyMoveSpeedCap b) /\
  (orb neg pos = false ->
   Qabs (move_axis b neg pos v) <= Qabs v * keyMoveDrag).
Proof.
  pose proof (keyMoveSpeedCap_pos b) as Hc.
  assert (Hclamp : forall u, Qabs (clampRange u (keyMoveSpeedCap b))
                             <= keyMoveSpeedCap b).
  { intro u. rewrite clampRange_spec.
    apply Qabs_bound.
    - apply Q.le_max_l.
    - apply Q.max_lub; [lra | apply Q.le_min_l]. }
  unfold move_axis. split; intro H.
  - destruct neg; [apply Hclamp|]. destruct pos; [apply Hclamp|discriminate].
  - destruct neg; [discriminate|]. destruct pos; [discriminate|].
    cbv zeta. destruct (Qltb _ _).
    + setoid_replace (Qabs 0) with 0 by reflexivity.
      apply Qmult_le_0_compat; [apply Qabs_nonneg | discriminate].
    + rewrite Qabs_drag. apply Qle_refl.
Qed.

Section Ticks.

Variables sqrt sin cos : Q -> Q.

(** Every tick uses the pointer's movement up: afterwards [lastX], [lastY]
    equal [tx], [ty] (themselves unchanged) and [mouseMovement] is (0, 0).
    So a following tick that reads a zero past [mouseMovement] does not
    rotate: it leaves the matrix (the identity, on a reset) translated by
    its [keyMovement], or as it is when that vector is zero. *)
Theorem UpdateCameraHack_consumes_mouse (b : Buttons)
  (input : VideoCore.RenderHacksInput) (o : Q) (w : EmuWindow) :
  let w1 := fst (UpdateCameraHack sqrt sin cos b input o w) in
  let c := camera_hack_state w in
  let c1 := camera_hack_state w1 in
  mouseMovement (fps_camera_controller w1) = (0, 0) /\
  lastX c1 = tx c1 /\ lastY c1 = ty c1 /\
  tx c1 = tx c /\ ty c1 = ty c /\ grabbed c1 = grabbed c /\
  forall (b2 : Buttons) (input2 : VideoCore.RenderHacksInput),
    let w2 := fst (UpdateCameraHack sqrt sin cos b2 input2 0 w1) in
    let m := if keyB b2 then Common.mat4_identity
             else worldMatrix (fps_camera_controller w1) in
    worldMatrix (fps_camera_controller w2)
    = if isZero (keyMovement (fps_camera_controller w2)) then m
      else Common.mat4_translate m (keyMovement (fps_camera_controller w2)).
Proof.
  cbv zeta.
  assert (Hm : mouseMovement
                 (fps_camera_controller
                    (fst (UpdateCameraHack sqrt sin cos b input o w)))
               = (0, 0)).
  { unfold UpdateCameraHack. cbv zeta.
    cbn [fst fps_camera_controller mouseMovement].
    rewrite !mouse_snap. reflexivity. }
  split; [exact Hm|].
  repeat (split; [reflexivity|]).
  intros b2 input2.
  apply (UpdateCameraHack_translates_by_keyMovement sqrt sin cos).
  - reflexivity.
  - reflexivity.
  - exact Hm.
Qed.

(** Whenever [mat4_inverse] succeeds on the matrix a tick leaves, the tick
    makes one call of [SetRenderHacks], which carries the matrix
    [mat4_inverse] returned as [view_matrix] and the window's fog flag. *)
Theorem UpdateCameraHack_publishes_inverse (b : Buttons)
  (input : VideoCore.RenderHacksInput) (o : Q) (w : EmuWindow)
  (view : Common.mat4) :
  let r := UpdateCameraHack sqrt sin cos b input o w in
  let m := worldMatrix (fps_camera_controller (fst r)) in
  Common.mat4_inverse m = Some view ->
  snd r = [VideoCore.MkRenderHacksInput view (fog_disabled w)].
Proof.
  cbv zeta. intro Hinv.
  rewrite UpdateCameraHack_always_publishes. cbv zeta.
  rewrite Hinv. reflexivity.
Qed.

(** A tick that sees no mouse movement and no reset changes elements 12..15
    of [worldMatrix] at most: elements 0..11, the orientation part, stay as
    they are. *)
Theorem key_movement_keeps_orientation (b : Buttons)
  (input : VideoCore.RenderHacksInput) (w : EmuWindow) :
  tx (camera_hack_state w) = lastX (camera_hack_state w) ->
  ty (camera_hack_state w) = lastY (camera_hack_state w) ->
  mouseMovement (fps_camera_controller w) = (0, 0) ->
  keyB b = false ->
  let m := worldMatrix (fps_camera_controller w) in
  let m' := worldMatrix (fps_camera_controller
                           (fst (UpdateCameraHack sqrt sin cos b input 0 w))) in
  Common.m0 m' = Common.m0 m /\ Common.m1 m' = Common.m1 m /\
  Common.m2 m' = Common.m2 m /\ Common.m3 m' = Common.m3 m /\
  Common.m4 m' = Common.m4 m /\ Common.m5 m' = Common.m5 m /\
  Common.m6 m' = Common.m6 m /\ Common.m7 m' = Common.m7 m /\
  Common.m8 m' = Common.m8 m /\ Common.m9 m' = Common.m9 m /\
  Common.m10 m' = Common.m10 m /\ Common.m11 m' = Common.m11 m.
Proof.
  intros Hx Hy Hm Hb. cbv zeta.
  rewrite (UpdateCameraHack_translates_by_keyMovement sqrt sin cos b input w
             Hx Hy Hm).
  cbv zeta. rewrite Hb.
  destruct (isZero _); repeat split; reflexivity.
Qed.

(** The speed of every axis stays within the larger of the two caps: with a
    key of the axis held a tick brings it within the current cap, whatever
    it was; with none held the magnitude shrinks by the drag factor at
    least; so a speed of magnitude at most 50 stays so under any keys. *)
Theorem keyMovement_bounded (a : Axis) (b : Buttons)
  (input : VideoCore.RenderHacksInput) (o : Q) (w : EmuWindow) :
  let v := speed a w in
  let v' := speed a (fst (UpdateCameraHack sqrt sin cos b input o w)) in
  (orb (key_neg a b) (key_pos a b) = true -> Qabs v' <= keyMoveSpeedCap b) /\
  (orb (key_neg a b) (key_pos a b) = false -> Qabs v' <= Qabs v * 0.8) /\
  (Qabs v <= 50 -> Qabs v' <= 50).
Proof.
  cbv zeta. rewrite tick_speed.
  destruct (move_axis_bounds b (key_neg a b) (key_pos a b) (speed a w))
    as [Hheld Hfree].
  split; [exact Hheld|]. split; [exact Hfree|].
  intro Hv.
  destruct (orb (key_neg a b) (key_pos a b)).
  - apply Qle_trans with (keyMoveSpeedCap b); [apply Hheld; reflexivity|].
    rewrite keyMoveSpeedCap_value. destruct (isShiftPressed b); discriminate.
  - apply Qle_trans with (Qabs (speed a w) * keyMoveDrag);
      [apply Hfree; reflexivity|].
    unfold keyMoveDrag. pose proof (Qabs_nonneg (speed a w)). lra.
Qed.

Lemma run_ticks_app (b : Buttons)
  (env1 env2 : list (VideoCore.RenderHacksInput * Q)) (w : EmuWindow) :
  run_ticks sqrt sin cos b (env1 ++ env2) w
  = run_ticks sqrt sin cos b env2 (run_ticks sqrt sin cos b env1 w).
Proof.
  revert w. induction env1 as [|[input o] env1 IH]; intro w;
    [reflexivity|].
  cbn [app run_ticks]. apply IH.
Qed.

(** With no key of the axis held, [k] ticks scale the bound by 0.8 each. *)
Lemma drag_ticks_bound (a : Axis) (b : Buttons) :
  key_neg a b = false -> key_pos a b = false ->
  forall (env : list (VideoCore.RenderHacksInput * Q)) (w : EmuWindow),
    Qabs (speed a w) <= Scenario.top_speed ->
    Qabs (speed a (run_ticks sqrt sin cos b env w))
    <= Scenario.decayed (length env).
Proof.
  intros Hn Hp env.
  induction env as [|[input o] env IH] using rev_ind; intros w Hv.
  - exact Hv.
  - rewrite run_ticks_app, length_app, Nat.add_comm.
    cbn [length Nat.add run_ticks Scenario.decayed].
    rewrite tick_speed, Hn, Hp.
    destruct (move_axis_bounds b false false
                (speed a (run_ticks sqrt sin cos b env w))) as [_ Hfree].
    apply Qle_trans with
      (Qabs (speed a (run_ticks sqrt sin cos b env w)) * keyMoveDrag);
      [apply Hfree; reflexivity|].
    apply Qmult_le_compat_r; [apply IH; exact Hv | discriminate].
Qed.

(** At rest an axis with no key held stays at rest. *)
Lemma rest_ticks (a : Axis) (b : Buttons) :
  key_neg a b = false -> key_pos a b = false ->
  forall (env : list (VideoCore.RenderHacksInput * Q)) (w : EmuWindow),
    speed a w = 0 -> speed a (run_ticks sqrt sin cos b env w) = 0.
Proof.
  intros Hn Hp env.
  induction env as [|[input o] env IH]; intros w Hv; [exact Hv|].
  cbn [run_ticks]. apply IH.
  rewrite tick_speed, Hn, Hp, Hv. reflexivity.
Qed.

(** Once both keys of an axis are released, a speed of magnitude at most 50
    is exactly 0 after 39 ticks, and stays 0 for as long as no key of the
    axis is held. *)
Theorem keyMovement_comes_to_rest (a : Axis) (b : Buttons)
  (env : list (VideoCore.RenderHacksInput * Q)) (w : EmuWindow) :
  key_neg a b = false -> key_pos a b = false ->
  Qabs (speed a w) <= 50 ->
  (Scenario.ticks_to_rest <= length env)%nat ->
  speed a (run_ticks sqrt sin cos b env w) = 0.
Proof.
  intros Hn Hp Hv Hlen.
  rewrite <- (firstn_skipn 38 env), run_ticks_app.
  set (w38 := run_ticks sqrt sin cos b (firstn 38 env) w).
  assert (H38 : Qabs (speed a w38) <= Scenario.decayed 38).
  { pose proof (drag_ticks_bound a b Hn Hp (firstn 38 env) w Hv) as H.
    rewrite length_firstn, Nat.min_l in H;
      [exact H | unfold Scenario.ticks_to_rest in Hlen; lia]. }
  destruct (skipn 38 env) as [|[input o] rest] eqn:E.
  - exfalso.
    assert (L : length (skipn 38 env) = 0%nat) by (rewrite E; reflexivity).
    rewrite length_skipn in L. unfold Scenario.ticks_to_rest in Hlen. lia.
  - cbn [run_ticks]. apply rest_ticks; [exact Hn | exact Hp |].
    rewrite tick_speed, Hn, Hp. unfold move_axis. cbv zeta.
    replace (Qltb (Qabs (speed a w38 * keyMoveDrag)) keyMoveLowSpeedCap)
      with true; [reflexivity|].
    symmetry. apply Qltb_true. rewrite Qabs_drag.
    apply Qle_lt_trans with (Scenario.decayed 38 * keyMoveDrag).
    + apply Qmult_le_compat_r; [exact H38 | discriminate].
    + vm_compute. reflexivity.
Qed.

End Ticks.

Lemma UpdateCameraHack_publishes_inverse_witness :
  let r := UpdateCameraHack Scenario.sqrt_at_one Scenario.sin_zero
             Scenario.cos_zero Scenario.only_E
             (VideoCore.MkRenderHacksInput Scenario.zero_matrix true) 0
             Scenario.pitched_window in
  let m := worldMatrix (fps_camera_controller (fst r)) in
  exists view,
    Common.mat4_inverse m = Some view /\
    snd r = [VideoCore.MkRenderHacksInput view false].
Proof.
  cbv zeta. eexists. split; [reflexivity|].
  exact (UpdateCameraHack_publishes_inverse
           Scenario.sqrt_at_one Scenario.sin_zero Scenario.cos_zero
           Scenario.only_E
           (VideoCore.MkRenderHacksInput Scenario.zero_matrix true) 0
           Scenario.pitched_window _ eq_refl).
Defined.

Lemma key_movement_keeps_orientation_witness :
  let m := worldMatrix (fps_camera_controller Scenario.pitched_window) in
  let m' :=
    worldMatrix
      (fps_camera_controller
         (fst (UpdateCameraHack Scenario.sqrt_at_one Scenario.sin_zero
                 Scenario.cos_zero Scenario.only_W
                 (VideoCore.MkRenderHacksInput Scenario.zero_matrix true) 0
                 Scenario.pitched_window))) in
  Common.m5 m' = Common.m5 m /\ Common.m6 m' = Common.m6 m.
Proof.
  cbv zeta.
  destruct (key_movement_keeps_orientation
              Scenario.sqrt_at_one Scenario.sin_zero Scenario.cos_zero
              Scenario.only_W
              (VideoCore.MkRenderHacksInput Scenario.zero_matrix true)
              Scenario.pitched_window eq_refl eq_refl eq_refl eq_refl)
    as (_ & _ & _ & _ & _ & H5 & H6 & _).
  split; [exact H5 | exact H6].
Defined.

Lemma keyMovement_bounded_witness :
  let w := run_ticks Scenario.sqrt_at_one Scenario.sin_zero Scenario.cos_zero
             Scenario.only_W
             (Scenario.five_ticks
                (VideoCore.MkRenderHacksInput Scenario.zero_matrix true))
             (Scenario.window (Scenario.stacked_layout true)) in
  Qabs (speed Forward
          (fst (UpdateCameraHack Scenario.sqrt_at_one Scenario.sin_zero
                  Scenario.cos_zero Scenario.no_buttons
                  (VideoCore.MkRenderHacksInput Scenario.zero_matrix true) 0
                  w)))
  <= 50.
Proof.
  cbv zeta.
  apply (keyMovement_bounded Scenario.sqrt_at_one Scenario.sin_zero
           Scenario.cos_zero Forward Scenario.no_buttons).
  vm_compute. discriminate.
Defined.

Lemma keyMovement_comes_to_rest_witness :
  let w := run_ticks Scenario.sqrt_at_one Scenario.sin_zero Scenario.cos_zero
             Scenario.only_W
             (Scenario.five_ticks
                (VideoCore.MkRenderHacksInput Scenario.zero_matrix true))
             (Scenario.window (Scenario.stacked_layout true)) in
  speed Forward
    (run_ticks Scenario.sqrt_at_one Scenario.sin_zero Scenario.cos_zero
       Scenario.no_buttons
       (repeat (VideoCore.MkRenderHacksInput Scenario.zero_matrix true, 0)
               Scenario.ticks_to_rest)
       w)
  = 0.
Proof.
  cbv zeta.
  apply (keyMovement_comes_to_rest Scenario.sqrt_at_one Scenario.sin_zero
           Scenario.cos_zero Forward Scenario.no_buttons).
  - reflexivity.
  - reflexivity.
  - vm_compute. discriminate.
  - rewrite repeat_length. apply Nat.le_refl.
Defined.

End CameraTicks.

(** ** String utilities *)

Module StringSpec.

Import StringUtil.

Local Open Scope nat_scope.

Lemma tolower_idem (c : ascii) : tolower (tolower c) = tolower c.
Proof. destruct c as [[] [] [] [] [] [] [] []]; reflexivity. Qed.

Lemma tolower_toupper (c : ascii) : tolower (toupper c) = tolower c.
Proof. destruct c as [[] [] [] [] [] [] [] []]; reflexivity. Qed.

Lemma toupper_tolower (c : ascii) : toupper (tolower c) = toupper c.
Proof. destruct c as [[] [] [] [] [] [] [] []]; reflexivity. Qed.

Lemma toupper_idem (c : ascii) : toupper (toupper c) = toupper c.
Proof. destruct c as [[] [] [] [] [] [] [] []]; reflexivity. Qed.

(** [ToLower] and [ToUpper] keep the length, applying either twice is
    applying it once, and each undoes the other as far as case goes, so two
    strings that differ in case only have the same [ToLower]. *)
Theorem case_conversion (s : str) :
  length (ToLower s) = length s /\
  length (ToUpper s) = length s /\
  ToLower (ToLower s) = ToLower s /\
  ToUpper (ToUpper s) = ToUpper s /\
  ToLower (ToUpper s) = ToLower s /\
  ToUpper (ToLower s) = ToUpper s.
Proof.
  unfold ToLower, ToUpper. rewrite !length_map, !map_map.
  repeat split; apply map_ext; intro c.
  - apply tolower_idem.
  - apply toupper_idem.
  - apply tolower_toupper.
  - apply toupper_tolower.
Qed.

Lemma last_app_one (s : str) (c d : ascii) : last (s ++ [c]) d = c.
Proof. apply last_last. Qed.

(** The last character of a string that has one. *)
Lemma last_default (c : ascii) (s : str) (a b : ascii) :
  last (c :: s) a = last (c :: s) b.
Proof.
  revert c. induction s as [|d s IH]; intro c; [reflexivity|].
  change (last (d :: s) a = last (d :: s) b). apply IH.
Qed.

Lemma substr_middle (pre mid post : str) :
  Text.fits (pre ++ mid ++ post) ->
  substr (pre ++ mid ++ post) (length pre) (Z.of_nat (length mid)) = mid.
Proof.
  intro Hfit. unfold substr.
  rewrite skipn_app, skipn_all, Nat.sub_diag. cbn [skipn app].
  rewrite !length_app.
  replace (Z.to_nat _) with (length mid) by lia.
  rewrite firstn_app, firstn_all, Nat.sub_diag. cbn [firstn].
  apply app_nil_r.
Qed.

(** [StripQuotes] removes one pair of enclosing double quotes; a string that
    is a single double quote, which is both the first and the last
    character, becomes empty; a string that does not both start and end with
    a double quote is returned as it is. *)
Theorem StripQuotes_spec :
  (forall t : str,
      Text.fits (quote :: t ++ [quote]) ->
      StripQuotes (quote :: t ++ [quote]) = t) /\
  StripQuotes [quote] = [] /\
  (forall s : str,
      hd NUL s <> quote \/ last s NUL <> quote -> StripQuotes s = s).
Proof.
  split; [|split].
  - intros t Hfit. unfold StripQuotes.
    change (quote :: t ++ [quote]) with ([quote] ++ t ++ [quote]).
    rewrite app_assoc, last_app_one, Ascii.eqb_refl. cbn [andb].
    rewrite <- app_assoc.
    replace (wrap64 _) with (Z.of_nat (length t)).
    + apply (substr_middle [quote] t [quote]). exact Hfit.
    + unfold wrap64. unfold Text.fits in Hfit.
      cbn [length app] in *. rewrite !length_app in *. cbn [length] in *.
      replace (Z.of_nat (S (length t + 1)) - 2)%Z
        with (Z.of_nat (length t)) by lia.
      symmetry. apply Z.mod_small. lia.
  - reflexivity.
  - intros s H. unfold StripQuotes. destruct s as [|c s']; [reflexivity|].
    destruct H as [H|H].
    + cbn [hd] in H.
      destruct (Ascii.eqb_spec quote c) as [E|E]; [congruence|reflexivity].
    + rewrite (last_default c s' c NUL).
      destruct (Ascii.eqb_spec quote (last (c :: s') NUL)) as [E|E];
        [congruence|].
      rewrite andb_false_r. reflexivity.
Qed.

Lemma find_first_not_of_None (chars s : str) :
  find_first_not_of chars s = None <-> Text.all_in chars s.
Proof.
  unfold Text.all_in. induction s as [|c s IH]; cbn [find_first_not_of].
  - split; [constructor | reflexivity].
  - destruct (mem c chars) eqn:E.
    + destruct (find_first_not_of chars s); cbn [option_map].
      * split; [discriminate|]. intro H. inversion H; subst.
        apply IH in H3. discriminate.
      * split; [|reflexivity]. intros _. constructor; [exact E|].
        apply IH. reflexivity.
    + split; [discriminate|]. intro H. inversion H; subst. congruence.
Qed.

Lemma find_first_not_of_Some (chars s : str) (i : nat) :
  find_first_not_of chars s = Some i ->
  exists pre c rest,
    s = pre ++ c :: rest /\ length pre = i /\ Text.all_in chars pre /\
    mem c chars = false.
Proof.
  revert i. induction s as [|c s IH]; intros i H; cbn [find_first_not_of] in H.
  - discriminate.
  - destruct (mem c chars) eqn:E.
    + destruct (find_first_not_of chars s) as [j|]; [|discriminate].
      cbn [option_map] in H. injection H as <-.
      destruct (IH j eq_refl) as (pre & d & rest & Hs & Hl & Hp & Hd).
      exists (c :: pre), d, rest. subst s.
      repeat split; [cbn; congruence | constructor; assumption | exact Hd].
    + injection H as <-. exists [], c, s.
      repeat split; [constructor | exact E].
Qed.

Lemma find_last_not_of_None (chars s : str) :
  find_last_not_of chars s = None <-> Text.all_in chars s.
Proof.
  unfold Text.all_in. induction s as [|c s IH]; cbn [find_last_not_of].
  - split; [constructor | reflexivity].
  - destruct (find_last_not_of chars s).
    + split; [discriminate|]. intro H. inversion H; subst.
      apply IH in H3. discriminate.
    + destruct (mem c chars) eqn:E.
      * split; [|reflexivity]. intros _. constructor; [exact E|].
        apply IH. reflexivity.
      * split; [discriminate|]. intro H. inversion H; subst. congruence.
Qed.

Lemma find_last_not_of_Some (chars s : str) (k : nat) :
  find_last_not_of chars s = Some k ->
  exists mid post,
    s = mid ++ post /\ length mid = S k /\
    mem (last mid NUL) chars = false /\ Text.all_in chars post.
Proof.
  revert k. induction s as [|c s IH]; intros k H; cbn [find_last_not_of] in H.
  - discriminate.
  - destruct (find_last_not_of chars s) as [i|] eqn:E.
    + injection H as <-.
      destruct (IH i eq_refl) as (mid & post & Hs & Hl & Hm & Hp).
      exists (c :: mid), post. subst s.
      repeat split; [cbn; congruence | | exact Hp].
      destruct mid as [|d mid]; [discriminate|]. exact Hm.
    + destruct (mem c chars) eqn:Ec; [discriminate|].
      injection H as <-. exists [c], s.
      repeat split; [exact Ec|]. apply find_last_not_of_None. exact E.
Qed.

Lemma find_last_not_of_app (chars pre t : str) :
  Text.all_in chars pre ->
  find_last_not_of chars (pre ++ t)
  = option_map (fun k => length pre + k) (find_last_not_of chars t).
Proof.
  intro Hp. induction Hp as [|c pre Hc Hp IH].
  - cbn [app length]. destruct (find_last_not_of chars t); reflexivity.
  - cbn [app find_last_not_of length]. rewrite IH.
    destruct (find_last_not_of chars t); cbn [option_map];
      [reflexivity|]. rewrite Hc. reflexivity.
Qed.

(** How [StripSpaces] cuts a string that has a character other than
    whitespace: between the first and the last such character. *)
Lemma StripSpaces_cut (s : str) :
  Text.fits s ->
  ~ Text.all_in whitespace s ->
  exists pre mid post c,
    s = pre ++ mid ++ post /\ StripSpaces s = mid /\
    Text.all_in whitespace pre /\ Text.all_in whitespace post /\
    hd NUL mid = c /\ mid <> [] /\
    mem c whitespace = false /\ mem (last mid NUL) whitespace = false.
Proof.
  intros Hfit Hnot. unfold StripSpaces.
  destruct (find_first_not_of whitespace s) as [i|] eqn:Ef.
  - destruct (find_first_not_of_Some _ _ _ Ef)
      as (pre & c & rest & Hs & Hl & Hp & Hc).
    subst s. rewrite (find_last_not_of_app _ _ _ Hp).
    destruct (find_last_not_of whitespace (c :: rest)) as [k|] eqn:El.
    + destruct (find_last_not_of_Some _ _ _ El)
        as (mid & post & Hs & Hlm & Hm & Hpost).
      exists pre, mid, post, c. rewrite Hs.
      split; [reflexivity|]. split.
      * cbn [option_map size_t_of]. subst i.
        replace (wrap64 _) with (Z.of_nat (length mid)).
        -- apply substr_middle. rewrite <- Hs. exact Hfit.
        -- unfold wrap64.
           replace (Z.of_nat (length pre + k) - Z.of_nat (length pre) + 1)%Z
             with (Z.of_nat (length mid)) by lia.
           symmetry. apply Z.mod_small.
           unfold Text.fits in Hfit. rewrite Hs in Hfit.
           rewrite !length_app in Hfit. lia.
      * repeat split; try assumption.
        -- destruct mid as [|d mid]; [discriminate|].
           cbn [app] in Hs. injection Hs as -> _. reflexivity.
        -- intro Hnil. subst mid. discriminate.
    + apply find_last_not_of_None in El. inversion El; subst. congruence.
  - apply find_first_not_of_None in Ef. contradiction.
Qed.

(** [StripSpaces] removes a run of spaces, tabs, carriage returns and line
    feeds from each end of the string and nothing else: what is left
    neither starts nor ends with one of them, and a string made of them
    only becomes empty. *)
Theorem StripSpaces_spec (s : str) :
  Text.fits s ->
  (exists pre post,
      s = pre ++ StripSpaces s ++ post /\
      Text.all_in whitespace pre /\ Text.all_in whitespace post) /\
  (Text.all_in whitespace s -> StripSpaces s = []) /\
  (forall c t,
      StripSpaces s = c :: t ->
      mem c whitespace = false /\ mem (last (c :: t) c) whitespace = false).
Proof.
  intro Hfit.
  assert (Hall : Text.all_in whitespace s -> StripSpaces s = []).
  { intro H. unfold StripSpaces.
    apply find_first_not_of_None in H. rewrite H. reflexivity. }
  destruct (find_first_not_of whitespace s) as [i|] eqn:Ef.
  - assert (Hnot : ~ Text.all_in whitespace s).
    { intro H. apply find_first_not_of_None in H. congruence. }
    destruct (StripSpaces_cut s Hfit Hnot)
      as (pre & mid & post & c & Hs & Hm & Hpre & Hpost & Hhd & Hne & Hc & Hl).
    split; [|split].
    + exists pre, post. rewrite Hm. auto.
    + exact Hall.
    + intros d t Hd. rewrite Hm in Hd. rewrite Hd in Hhd, Hl.
      cbn [hd] in Hhd. rewrite Hhd. split; [exact Hc|].
      rewrite <- Hhd, (last_default d t d NUL). exact Hl.
  - apply find_first_not_of_None in Ef.
    split; [|split].
    + exists s, []. rewrite (Hall Ef), app_nil_r.
      repeat split; [exact Ef | constructor].
    + exact Hall.
    + intros c t Hc. rewrite (Hall Ef) in Hc. discriminate.
Qed.

Lemma find_last_not_of_last (chars : str) (c : ascii) (s : str) :
  mem (last (c :: s) NUL) chars = false ->
  find_last_not_of chars (c :: s) = Some (length s).
Proof.
  revert c. induction s as [|d s IH]; intros c H.
  - cbn in *. rewrite H. reflexivity.
  - change (last (c :: d :: s) NUL) with (last (d :: s) NUL) in H.
    cbn [find_last_not_of] in *. rewrite (IH d H). reflexivity.
Qed.

(** A string that neither starts nor ends with whitespace is unchanged. *)
Lemma StripSpaces_fixed (c : ascii) (t : str) :
  Text.fits (c :: t) ->
  mem c whitespace = false ->
  mem (last (c :: t) NUL) whitespace = false ->
  StripSpaces (c :: t) = c :: t.
Proof.
  intros Hfit Hc Hl. unfold StripSpaces.
  cbn [find_first_not_of]. rewrite Hc.
  rewrite (find_last_not_of_last _ _ _ Hl). cbn [size_t_of].
  replace (wrap64 _) with (Z.of_nat (length (c :: t))).
  - pose proof (substr_middle [] (c :: t) []) as H.
    cbn [app length] in H. rewrite app_nil_r in H. apply H. exact Hfit.
  - unfold wrap64. cbn [length].
    replace (Z.of_nat (length t) - Z.of_nat 0 + 1)%Z
      with (Z.of_nat (S (length t))) by lia.
    symmetry. apply Z.mod_small. unfold Text.fits in Hfit.
    cbn [length] in Hfit. lia.
Qed.

(** [StripSpaces] leaves a string that has no whitespace at either end as it
    is, so stripping twice is stripping once. *)
Theorem StripSpaces_idempotent (s : str) :
  Text.fits s ->
  StripSpaces (StripSpaces s) = StripSpaces s /\
  (forall c t,
      s = c :: t -> mem c whitespace = false ->
      mem (last s NUL) whitespace = false -> StripSpaces s = s).
Proof.
  intro Hfit. split.
  - destruct (find_first_not_of whitespace s) as [i|] eqn:Ef.
    + assert (Hnot : ~ Text.all_in whitespace s).
      { intro H. apply find_first_not_of_None in H. congruence. }
      destruct (StripSpaces_cut s Hfit Hnot)
        as (pre & mid & post & c & Hs & Hm & _ & _ & Hhd & Hne & Hc & Hl).
      rewrite Hm. destruct mid as [|d t]; [congruence|].
      cbn [hd] in Hhd. subst d.
      apply StripSpaces_fixed; [|exact Hc | exact Hl].
      unfold Text.fits in *. rewrite Hs in Hfit.
      rewrite !length_app in Hfit. lia.
    + assert (E : StripSpaces s = [])
        by (unfold StripSpaces; rewrite Ef; reflexivity).
      rewrite E. reflexivity.
  - intros c t -> Hc Hl. apply StripSpaces_fixed; assumption.
Qed.

Lemma terminated_length_prefix (t rest : str) (max_len : nat) :
  ~ In NUL t ->
  max_len <= length t ->
  terminated_length (t ++ rest) max_len = Some max_len.
Proof.
  revert max_len. induction t as [|c t IH]; intros max_len Hn Hl.
  - cbn [length] in Hl. replace max_len with 0 by lia. reflexivity.
  - destruct max_len as [|m]; [reflexivity|].
    cbn [app terminated_length].
    destruct (Ascii.eqb_spec c NUL) as [E|E].
    + exfalso. apply Hn. left. exact E.
    + rewrite IH; [reflexivity | | cbn [length] in Hl; lia].
      intro H. apply Hn. right. exact H.
Qed.

Lemma terminated_length_NUL (t pad : str) (max_len : nat) :
  ~ In NUL t ->
  terminated_length (t ++ NUL :: pad) max_len
  = Some (Nat.min max_len (length t)).
Proof.
  revert max_len. induction t as [|c t IH]; intros max_len Hn.
  - destruct max_len; reflexivity.
  - destruct max_len as [|m]; [reflexivity|].
    cbn [app terminated_length length Nat.min].
    destruct (Ascii.eqb_spec c NUL) as [E|E].
    + exfalso. apply Hn. left. exact E.
    + rewrite IH; [reflexivity|]. intro H. apply Hn. right. exact H.
Qed.

Lemma terminated_length_short (t : str) (max_len : nat) :
  ~ In NUL t ->
  length t < max_len ->
  terminated_length t max_len = None.
Proof.
  revert max_len. induction t as [|c t IH]; intros max_len Hn Hl.
  - destruct max_len; [cbn in Hl; lia | reflexivity].
  - destruct max_len as [|m]; [cbn in Hl; lia|].
    cbn [terminated_length].
    destruct (Ascii.eqb_spec c NUL) as [E|E].
    + exfalso. apply Hn. left. exact E.
    + rewrite IH; [reflexivity | | cbn [length] in Hl; lia].
      intro H. apply Hn. right. exact H.
Qed.

(** [StringFromFixedZeroTerminatedBuffer] reads back a string without NUL
    that was stored in a buffer: followed by a NUL (and anything after it)
    it comes back cut to [max_len] characters; filling the first [max_len]
    bytes without a NUL it comes back cut as well; and when the buffer ends
    before [max_len] bytes and before any NUL, the loop reads past its
    end. *)
Theorem fixed_buffer_round_trip (t pad : str) (max_len : nat) :
  ~ In NUL t ->
  StringFromFixedZeroTerminatedBuffer (t ++ NUL :: pad) max_len
  = Some (firstn max_len t) /\
  (max_len <= length t ->
   StringFromFixedZeroTerminatedBuffer (t ++ pad) max_len
   = Some (firstn max_len t)) /\
  (length t < max_len ->
   StringFromFixedZeroTerminatedBuffer t max_len = None).
Proof.
  intro Hn. unfold StringFromFixedZeroTerminatedBuffer.
  split; [|split].
  - rewrite terminated_length_NUL by exact Hn. cbn [option_map].
    f_equal. destruct (Nat.le_ge_cases max_len (length t)) as [H|H].
    + rewrite Nat.min_l by exact H.
      rewrite firstn_app. replace (max_len - length t) with 0 by lia.
      cbn [firstn]. apply app_nil_r.
    + rewrite Nat.min_r by exact H.
      rewrite firstn_app, Nat.sub_diag, firstn_all. cbn [firstn].
      rewrite app_nil_r. symmetry. apply firstn_all2. exact H.
  - intro Hl. rewrite terminated_length_prefix by assumption.
    cbn [option_map]. f_equal.
    rewrite firstn_app. replace (max_len - length t) with 0 by lia.
    cbn [firstn]. apply app_nil_r.
  - intro Hl. rewrite terminated_length_short by assumption. reflexivity.
Qed.

Lemma fixed_buffer_round_trip_witness :
  StringFromFixedZeroTerminatedBuffer (Text.hello ++ NUL :: Text.hello) 8
  = Some Text.hello /\
  StringFromFixedZeroTerminatedBuffer (Text.hello ++ Text.hello) 3
  = Some (firstn 3 Text.hello) /\
  StringFromFixedZeroTerminatedBuffer Text.hello 8 = None.
Proof.
  assert (Hn : ~ In NUL Text.hello).
  { intro H. cbn in H.
    repeat (destruct H as [H|H]; [discriminate|]). exact H. }
  destruct (fixed_buffer_round_trip Text.hello Text.hello 8 Hn)
    as (H1 & _ & H3).
  destruct (fixed_buffer_round_trip Text.hello Text.hello 3 Hn)
    as (_ & H2 & _).
  split; [exact H1|]. split; [apply H2; cbn; lia | apply H3; cbn; lia].
Defined.

Lemma find_last_of_None (c : ascii) (s : str) :
  find_last_of [c] s = None <-> ~ In c s.
Proof.
  induction s as [|d s IH]; cbn [find_last_of mem].
  - split; [intros _ H; inversion H | reflexivity].
  - destruct (find_last_of [c] s).
    + split; [discriminate|]. intro H. exfalso.
      assert (K : ~ In c s) by (intro K; apply H; right; exact K).
      apply IH in K. discriminate.
    + rewrite orb_false_r. destruct (Ascii.eqb_spec d c) as [E|E].
      * split; [discriminate|]. intro H. exfalso. apply H. left. exact E.
      * split; [|reflexivity]. intros _ [H|H]; [congruence|].
        apply (proj1 IH eq_refl). exact H.
Qed.

Lemma find_last_of_Some (c : ascii) (s : str) (i : nat) :
  find_last_of [c] s = Some i ->
  exists front post,
    s = front ++ c :: post /\ length front = i /\ ~ In c post.
Proof.
  revert i. induction s as [|d s IH]; intros i H; cbn [find_last_of mem] in H.
  - discriminate.
  - destruct (find_last_of [c] s) as [j|] eqn:E.
    + injection H as <-.
      destruct (IH j eq_refl) as (front & post & Hs & Hl & Hp).
      exists (d :: front), post. subst s.
      repeat split; [cbn; congruence | exact Hp].
    + rewrite orb_false_r in H.
      destruct (Ascii.eqb_spec d c) as [Ed|Ed]; [|discriminate].
      injection H as <-. subst d. exists [], s.
      repeat split. apply find_last_of_None. exact E.
Qed.

Lemma substr_head (a b : str) :
  Text.fits (a ++ b) -> substr (a ++ b) 0 (Z.of_nat (length a)) = a.
Proof.
  intro H. pose proof (substr_middle [] a b) as K.
  cbn [app length] in K. apply K. exact H.
Qed.

Lemma substr_tail (a b : str) :
  Text.fits (a ++ b) -> substr (a ++ b) (length a) npos = b.
Proof.
  intro H. unfold substr.
  rewrite skipn_app, skipn_all, Nat.sub_diag. cbn [skipn app].
  rewrite length_app.
  unfold Text.fits in H. rewrite length_app in H. unfold npos.
  replace (Z.to_nat _) with (length b) by lia.
  apply firstn_all.
Qed.

(** Two ways of cutting one string at a position at or after the other. *)
Lemma app_eq_app_le (a x b y : str) :
  a ++ x = b ++ y -> length a <= length b ->
  exists l, b = a ++ l /\ x = l ++ y.
Proof.
  intros H Hl. destruct (app_eq_app _ _ _ _ H) as (l & [[Ha Hy]|[Hb Hx]]).
  - assert (l = []).
    { subst a. rewrite length_app in Hl. destruct l; [reflexivity|].
      cbn [length] in Hl. lia. }
    subst l. exists []. rewrite app_nil_r in Ha. subst a.
    cbn [app] in Hy. subst y. rewrite app_nil_r. split; reflexivity.
  - exists l. split; assumption.
Qed.

(** The three parts [SplitPath] returns. *)
Lemma SplitPath_parts (full_path path filename ext : str) :
  Text.fits full_path ->
  SplitPath full_path = Some (path, filename, ext) ->
  path ++ filename ++ ext = full_path /\
  (path = [] \/ last path NUL = Text.slash) /\
  ~ In Text.slash filename /\ ~ In Text.slash ext /\
  (ext = [] \/ exists e, ext = Text.dot :: e /\ ~ In Text.dot e).
Proof.
  intros Hfit H. unfold SplitPath in H.
  destruct full_path as [|c0 s0] eqn:Es; [discriminate|].
  rewrite <- Es in *. clear Es c0 s0. cbv zeta in H.
  (* the directory part *)
  assert (Hdir : exists dir tail,
             full_path = dir ++ tail /\
             match find_last_of [Text.slash] full_path with
             | None => 0
             | Some i => i + 1
             end = length dir /\
             (dir = [] \/ last dir NUL = Text.slash) /\ ~ In Text.slash tail).
  { destruct (find_last_of [Text.slash] full_path) as [i|] eqn:E.
    - destruct (find_last_of_Some _ _ _ E) as (front & post & Hs & Hl & Hp).
      exists (front ++ [Text.slash]), post.
      rewrite <- app_assoc. cbn [app].
      repeat split; [exact Hs | rewrite length_app; cbn; lia | | exact Hp].
      right. apply last_last.
    - exists [], full_path. repeat split; [left; reflexivity|].
      apply find_last_of_None. exact E. }
  destruct Hdir as (dir & tail & Hs & Hde & Hdir & Htail).
  change (find_last_of ["/"%char] full_path)
    with (find_last_of [Text.slash] full_path) in H.
  rewrite Hde in H. clear Hde.
  (* the extension *)
  assert (Hext : exists name e,
             tail = name ++ e /\
             match rfind "."%char full_path with
             | Some i => if i <? length dir then length full_path else i
             | None => length full_path
             end = length dir + length name /\
             (e = [] \/ exists e', e = Text.dot :: e' /\ ~ In Text.dot e')).
  { unfold rfind.
    destruct (find_last_of ["."%char] full_path) as [j|] eqn:E.
    - destruct (find_last_of_Some _ _ _ E) as (front & post & Hs2 & Hl & Hp).
      destruct (Nat.ltb_spec j (length dir)) as [Hlt|Hge].
      + exists tail, []. rewrite app_nil_r, Hs, length_app.
        repeat split. left. reflexivity.
      + rewrite Hs in Hs2. subst j.
        destruct (app_eq_app_le _ _ _ _ Hs2 Hge) as (name & Hf & Ht).
        exists name, (Text.dot :: post). subst front.
        rewrite length_app. repeat split; [exact Ht|].
        right. exists post. split; [reflexivity | exact Hp].
    - exists tail, []. rewrite app_nil_r, Hs, length_app.
      repeat split. left. reflexivity. }
  destruct Hext as (name & e & Ht & Hfe & He).
  rewrite Hfe in H. clear Hfe. subst tail.
  replace (length dir + length name - length dir) with (length name) in H
    by lia.
  rewrite Hs in H, Hfit.
  rewrite (substr_head dir (name ++ e) Hfit) in H.
  rewrite (substr_middle dir name e Hfit) in H.
  rewrite <- length_app in H.
  rewrite app_assoc in H, Hfit.
  rewrite (substr_tail (dir ++ name) e Hfit) in H.
  injection H as <- <- <-.
  split; [rewrite Hs; reflexivity|].
  split; [exact Hdir|].
  split; [intro K; apply Htail; apply in_or_app; left; exact K|].
  split; [intro K; apply Htail; apply in_or_app; right; exact K | exact He].
Qed.

(** [SplitPath] returns false on the empty string only; otherwise the three
    parts put together are the path given, the directory part is empty or
    ends with the last Text.slash, neither the file name nor the extension has a
    Text.slash, and the extension is empty or starts at the last Text.dot. *)
Theorem SplitPath_spec (full_path : str) :
  Text.fits full_path ->
  (SplitPath full_path = None <-> full_path = []) /\
  (forall path filename ext,
      SplitPath full_path = Some (path, filename, ext) ->
      path ++ filename ++ ext = full_path /\
      (path = [] \/ last path NUL = Text.slash) /\
      ~ In Text.slash filename /\ ~ In Text.slash ext /\
      (ext = [] \/ exists e, ext = Text.dot :: e /\ ~ In Text.dot e)).
Proof.
  intro Hfit. split.
  - destruct full_path; cbn; split; intro H; try reflexivity; discriminate.
  - intros path filename ext H.
    apply (SplitPath_parts full_path); assumption.
Qed.

Lemma SplitPath_spec_witness :
  SplitPath Text.archive_path
  = Some (Text.lib_dir ++ [Text.slash], firstn 5 Text.archive_name,
          skipn 5 Text.archive_name) /\
  (Text.lib_dir ++ [Text.slash]) ++ firstn 5 Text.archive_name
    ++ skipn 5 Text.archive_name = Text.archive_path.
Proof.
  split; [reflexivity|].
  assert (Hfit : Text.fits Text.archive_path)
    by (unfold Text.fits; cbn; lia).
  destruct (proj2 (SplitPath_spec Text.archive_path Hfit) _ _ _ eq_refl)
    as (H & _).
  exact H.
Defined.

(** Two cuts of one string, each after the last slash, are the same cut. *)
Lemma slash_cut_unique (a x b y : str) :
  a ++ x = b ++ y ->
  ~ In Text.slash x -> ~ In Text.slash y ->
  a = [] \/ last a NUL = Text.slash ->
  b = [] \/ last b NUL = Text.slash ->
  a = b /\ x = y.
Proof.
  assert (Hone : forall a x b y : str,
             a ++ x = b ++ y -> length a <= length b ->
             ~ In Text.slash x ->
             b = [] \/ last b NUL = Text.slash -> a = b /\ x = y).
  { clear. intros a x b y H Hl Hx Hb.
    destruct (app_eq_app_le _ _ _ _ H Hl) as (l & Hbl & Hxl).
    destruct l as [|c l].
    - rewrite app_nil_r in Hbl. cbn [app] in Hxl. split; congruence.
    - exfalso. destruct Hb as [Hb|Hb].
      + subst b. destruct a; discriminate.
      + destruct (exists_last (l := c :: l)) as (l' & z & E);
          [discriminate|].
        rewrite E in Hbl, Hxl. subst b.
        rewrite app_assoc, last_last in Hb. subst z.
        apply Hx. rewrite Hxl. apply in_or_app. left.
        apply in_or_app. right. left. reflexivity. }
  intros H Hx Hy Ha Hb.
  destruct (Nat.le_ge_cases (length a) (length b)) as [Hl|Hl].
  - apply (Hone a x b y); assumption.
  - symmetry in H. destruct (Hone b y a x H Hl Hy Ha) as [E1 E2].
    split; congruence.
Qed.

(** With [/] for [DIR_SEP_CHR]: [SplitPath] takes the result of
    [BuildCompleteFilename] apart again.  For a directory that is not empty
    and a file name without a slash, the directory part is the directory
    given, with a slash at its end if it had none, and the file name and
    extension put together are the file name given. *)
Theorem BuildCompleteFilename_SplitPath (_Path _Filename : str) :
  _Path <> [] ->
  ~ In Text.slash _Filename ->
  Text.fits (_Path ++ Text.slash :: _Filename) ->
  exists complete path filename ext,
    BuildCompleteFilename Text.slash _Path _Filename = Some complete /\
    SplitPath complete = Some (path, filename, ext) /\
    path = (if Ascii.eqb Text.slash (last _Path NUL) then _Path
            else _Path ++ [Text.slash]) /\
    filename ++ ext = _Filename.
Proof.
  intros Hne Hfn Hfit.
  destruct _Path as [|c p]; [congruence|].
  set (_Path := c :: p) in *.
  set (dir := if Ascii.eqb Text.slash (last _Path NUL) then _Path
              else _Path ++ [Text.slash]).
  assert (Hb : BuildCompleteFilename Text.slash _Path _Filename
               = Some (dir ++ _Filename)).
  { unfold BuildCompleteFilename, dir, _Path. cbv zeta.
    rewrite (last_default c p c NUL).
    destruct (Ascii.eqb Text.slash (last (c :: p) NUL)); reflexivity. }
  assert (Hdir : dir = [] \/ last dir NUL = Text.slash).
  { right. unfold dir.
    destruct (Ascii.eqb_spec Text.slash (last _Path NUL)) as [E|E].
    - symmetry. exact E.
    - apply last_last. }
  assert (Hfit' : Text.fits (dir ++ _Filename)).
  { unfold Text.fits in *. unfold dir.
    destruct (Ascii.eqb Text.slash (last _Path NUL));
      rewrite ?length_app in *; cbn [length] in *; lia. }
  destruct (SplitPath (dir ++ _Filename)) as [[[path filename] ext]|] eqn:Es.
  - exists (dir ++ _Filename), path, filename, ext.
    split; [exact Hb|]. split; [exact Es|].
    destruct (SplitPath_parts _ _ _ _ Hfit' Es)
      as (Hcat & Hpath & Hf & He & _).
    apply slash_cut_unique; try assumption.
    intro K. apply in_app_or in K. destruct K; contradiction.
  - exfalso. unfold SplitPath in Es.
    destruct (dir ++ _Filename) eqn:E; [|discriminate].
    apply app_eq_nil in E. destruct E as [E _].
    unfold dir, _Path in E.
    destruct (Ascii.eqb Text.slash (last (c :: p) NUL)); discriminate.
Qed.

Lemma BuildCompleteFilename_SplitPath_witness :
  exists complete path filename ext,
    BuildCompleteFilename Text.slash Text.lib_dir Text.archive_name
    = Some complete /\
    SplitPath complete = Some (path, filename, ext) /\
    path = Text.lib_dir ++ [Text.slash] /\
    filename ++ ext = Text.archive_name.
Proof.
  apply (BuildCompleteFilename_SplitPath Text.lib_dir Text.archive_name).
  - discriminate.
  - intro H. cbn in H.
    repeat (destruct H as [H|H]; [discriminate|]). exact H.
  - unfold Text.fits. cbn. lia.
Defined.

(** *** Splitting *)

Lemma break_at_Some (delim : ascii) (s line rest : str) :
  break_at delim s = (line, Some rest) ->
  s = line ++ delim :: rest /\ ~ In delim line /\
  Text.fields delim s = line :: Text.fields delim rest.
Proof.
  revert line. induction s as [|c s IH]; intros line H; cbn [break_at] in H.
  - discriminate.
  - cbn [Text.fields].
    destruct (Ascii.eqb_spec c delim) as [E|E].
    + injection H as <- <-. subst c. repeat split. intros [].
    + destruct (break_at delim s) as [l r] eqn:Eb.
      injection H as <- ->.
      destruct (IH l eq_refl) as (Hs & Hn & Hf).
      rewrite Hf. subst s. repeat split.
      intros [K|K]; [congruence | contradiction].
Qed.

Lemma break_at_None (delim : ascii) (s line : str) :
  break_at delim s = (line, None) ->
  s = line /\ ~ In delim line /\
  Text.fields delim s = match line with [] => [] | _ => [line] end.
Proof.
  revert line. induction s as [|c s IH]; intros line H; cbn [break_at] in H.
  - injection H as <-. repeat split. intros [].
  - cbn [Text.fields].
    destruct (Ascii.eqb_spec c delim) as [E|E]; [discriminate|].
    destruct (break_at delim s) as [l r] eqn:Eb.
    injection H as <- ->.
    destruct (IH l eq_refl) as (Hs & Hn & Hf).
    rewrite Hf. subst s. repeat split.
    + intros [K|K]; [congruence | contradiction].
    + destruct l; reflexivity.
Qed.

Lemma removelast_app_one (l : list str) (x : str) :
  removelast (l ++ [x]) = l.
Proof. apply removelast_last. Qed.

(** The loop of [SplitString] on a stream that is still good: it puts the
    fields of what is unread behind what [output] holds before its last
    element. *)
Lemma SplitString_loop_fields (delim : ascii) (n : nat) :
  forall (s : str) (acc : list str) (x : str) (fuel : nat),
    length s < n -> n < fuel ->
    SplitString_loop fuel (MkStream s false false) delim (acc ++ [x])
    = Some (acc ++ Text.fields delim s).
Proof.
  induction n as [|n IH]; intros s acc x fuel Hn Hf; [lia|].
  destruct fuel as [|fuel]; [lia|].
  cbn [SplitString_loop]. unfold getline.
  cbn [eofbit failbit unread orb].
  destruct (break_at delim s) as [line [rest|]] eqn:Eb.
  - destruct (break_at_Some _ _ _ _ Eb) as (Hs & _ & Hfields).
    cbn [failbit]. rewrite removelast_app_one.
    rewrite Hfields.
    transitivity (Some ((acc ++ [line]) ++ Text.fields delim rest)).
    + apply (IH rest (acc ++ [line]) [] fuel); [|lia].
      subst s. rewrite length_app in Hn. cbn [length] in Hn. lia.
    + rewrite <- app_assoc. reflexivity.
  - destruct (break_at_None _ _ _ Eb) as (Hs & _ & Hfields).
    rewrite Hfields. rewrite removelast_app_one.
    destruct line as [|c line]; cbn [failbit].
    + rewrite removelast_app_one, app_nil_r. reflexivity.
    + destruct fuel as [|fuel]; [subst s; cbn [length] in Hn; lia|].
      cbn [SplitString_loop]. unfold getline. cbn [eofbit failbit orb].
      unfold str in *.
      rewrite !removelast_last. reflexivity.
Qed.

Lemma fields_nil (delim : ascii) (s : str) :
  Text.fields delim s = [] <-> s = [].
Proof.
  destruct s as [|c s]; cbn [Text.fields]; [tauto|].
  split; [|discriminate].
  destruct (Ascii.eqb c delim); [discriminate|].
  destruct (Text.fields delim s); discriminate.
Qed.

Lemma fields_no_delim (delim : ascii) (s : str) :
  Forall (fun f => ~ In delim f) (Text.fields delim s).
Proof.
  induction s as [|c s IH]; cbn [Text.fields]; [constructor|].
  destruct (Ascii.eqb_spec c delim) as [E|E].
  - constructor; [intros [] | exact IH].
  - destruct (Text.fields delim s) as [|f fs].
    + constructor; [|constructor]. intros [K|[]]. congruence.
    + inversion IH; subst. constructor; [|assumption].
      intros [K|K]; [congruence | contradiction].
Qed.

Lemma fields_terminated (delim : ascii) (s : str) :
  concat (map (fun f => f ++ [delim]) (Text.fields delim s))
  = Text.terminated delim s.
Proof.
  induction s as [|c s IH]; [reflexivity|].
  cbn [Text.fields].
  assert (Hterm : Text.terminated delim (c :: s)
                  = match s with
                    | [] => if Ascii.eqb c delim then [c] else [c; delim]
                    | _ => c :: Text.terminated delim s
                    end).
  { unfold Text.terminated. destruct s as [|d s]; [reflexivity|].
    change (last (c :: d :: s) c) with (last (d :: s) c).
    rewrite (last_default d s c d).
    destruct (Ascii.eqb (last (d :: s) d) delim); reflexivity. }
  rewrite Hterm.
  destruct (Ascii.eqb_spec c delim) as [E|E].
  - cbn [map concat app]. rewrite IH. subst c.
    destruct s; reflexivity.
  - destruct (Text.fields delim s) as [|f fs] eqn:Ef.
    + apply fields_nil in Ef. subst s. reflexivity.
    + cbn [map concat app] in *. rewrite IH.
      destruct s; [discriminate | reflexivity].
Qed.

(** [SplitString] returns, for every vector passed in and with [size + 2]
    iterations at most, one and the same list of fields: none of them holds
    the delimiter, and the fields, each with a delimiter after it, make up
    the string with a delimiter at its end (added when the string has none
    there and is not empty).  So the empty string gives no field, and a
    delimiter at the very end gives no empty last field. *)
Theorem SplitString_spec (s : str) (delim : ascii) :
  exists fs : list str,
    (forall (fuel : nat) (output : list str),
        length s + 2 <= fuel -> SplitString fuel s delim output = Some fs) /\
    Forall (fun f => ~ In delim f) fs /\
    concat (map (fun f => f ++ [delim]) fs) = Text.terminated delim s /\
    (fs = [] <-> s = []).
Proof.
  exists (Text.fields delim s).
  split; [|split; [|split]].
  - intros fuel output Hf. unfold SplitString.
    destruct output as [|first output].
    + apply (SplitString_loop_fields delim (S (length s)) s [] []); lia.
    + apply (SplitString_loop_fields delim (S (length s)) s [] first); lia.
  - apply fields_no_delim.
  - apply fields_terminated.
  - apply fields_nil.
Qed.

Lemma SplitString_spec_witness :
  exists fs : list str,
    SplitString 8 Text.csv_line ","%char [Text.hello] = Some fs /\
    concat (map (fun f => f ++ [","%char]) fs)
    = Text.csv_line ++ [","%char].
Proof.
  destruct (SplitString_spec Text.csv_line ","%char)
    as (fs & Hrun & _ & Hcat & _).
  exists fs. split.
  - apply Hrun. cbn. lia.
  - exact Hcat.
Defined.

(** *** Finding and replacing *)

Lemma find_from_char_None (c : ascii) (s : str) (i : nat) :
  find_from [c] s i = None <-> ~ In c s.
Proof.
  revert i. induction s as [|d s IH]; intro i; cbn [find_from starts_with].
  - split; [intros _ [] | reflexivity].
  - rewrite andb_true_r. destruct (Ascii.eqb_spec c d) as [E|E].
    + split; [discriminate|]. intro H. exfalso. apply H. left. congruence.
    + rewrite IH. split.
      * intros H [K|K]; [congruence | contradiction].
      * intros H K. apply H. right. exact K.
Qed.

Lemma find_from_char_Some (c : ascii) (s : str) (i p : nat) :
  find_from [c] s i = Some p ->
  exists pre post, s = pre ++ c :: post /\ ~ In c pre /\ p = i + length pre.
Proof.
  revert i. induction s as [|d s IH]; intros i H;
    cbn [find_from starts_with] in H.
  - discriminate.
  - rewrite andb_true_r in H. destruct (Ascii.eqb_spec c d) as [E|E].
    + injection H as <-. subst d. exists [], s.
      repeat split; [intros [] | cbn; lia].
    + destruct (IH _ H) as (pre & post & Hs & Hn & Hp).
      exists (d :: pre), post. subst s.
      repeat split; [|cbn [length]; lia].
      intros [K|K]; [congruence | contradiction].
Qed.

Lemma find_after (done rest pat : str) :
  find (done ++ rest) pat (length done) = find_from pat rest (length done).
Proof.
  unfold find. rewrite length_app.
  replace (length done + length rest <? length done) with false
    by (symmetry; apply Nat.ltb_ge; lia).
  rewrite skipn_app, skipn_all, Nat.sub_diag. reflexivity.
Qed.

Lemma replace_at (pre old post new : str) :
  replace (pre ++ old ++ post) (length pre) (length old) new
  = pre ++ new ++ post.
Proof.
  unfold replace.
  rewrite firstn_app, firstn_all, Nat.sub_diag. cbn [firstn].
  rewrite app_nil_r. f_equal. f_equal.
  rewrite skipn_app, skipn_all2 by lia.
  replace (length pre + length old - length pre) with (length old) by lia.
  rewrite skipn_app, skipn_all, Nat.sub_diag. reflexivity.
Qed.

Lemma expand_tabs_app (n : nat) (a b : str) :
  Text.expand_tabs n (a ++ b) = Text.expand_tabs n a ++ Text.expand_tabs n b.
Proof. unfold Text.expand_tabs. apply flat_map_app. Qed.

Lemma expand_tabs_none (n : nat) (s : str) :
  ~ In tab s -> Text.expand_tabs n s = s.
Proof.
  intro H. induction s as [|c s IH]; [reflexivity|].
  unfold Text.expand_tabs in *. cbn [flat_map].
  destruct (Ascii.eqb_spec c tab) as [E|E].
  - exfalso. apply H. left. congruence.
  - cbn [app]. f_equal. apply IH. intro K. apply H. right. exact K.
Qed.

Lemma spaces_no_tab (n : nat) : ~ In tab (repeat " "%char n).
Proof. intro H. apply repeat_spec in H. discriminate. Qed.

Lemma expand_tabs_no_tab (n : nat) (s : str) :
  ~ In tab (Text.expand_tabs n s).
Proof.
  unfold Text.expand_tabs. intro H. apply in_flat_map in H.
  destruct H as (c & _ & H).
  destruct (Ascii.eqb_spec c tab) as [E|E].
  - apply (spaces_no_tab n). exact H.
  - destruct H as [H|[]]. congruence.
Qed.

(** The loop of [TabsToSpaces] with a tab size that is not negative. *)
Lemma TabsToSpaces_expand (tab_size : Z) (n : nat) :
  (0 <= tab_size)%Z ->
  forall (s : str) (fuel : nat),
    count_occ ascii_dec s tab < n -> n <= fuel ->
    TabsToSpaces fuel tab_size s
    = Returned (Text.expand_tabs (Z.to_nat tab_size) s).
Proof.
  intro Hts. induction n as [|n IH]; intros s fuel Hn Hf; [lia|].
  destruct fuel as [|fuel]; [lia|].
  cbn [TabsToSpaces].
  pose proof (find_after [] s [tab]) as Hfind. cbn [app length] in Hfind.
  rewrite Hfind.
  destruct (find_from [tab] s 0) as [p|] eqn:E.
  - destruct (find_from_char_Some _ _ _ _ E) as (pre & post & Hs & Hpre & Hp).
    replace (tab_size <? 0)%Z with false by (symmetry; apply Z.ltb_ge; lia).
    subst s p. cbn [Nat.add].
    pose proof (replace_at pre [tab] post
                  (repeat " "%char (Z.to_nat tab_size))) as Hr.
    cbn [length app] in Hr. cbn [app]. rewrite Hr.
    rewrite IH.
    + f_equal. rewrite !expand_tabs_app.
      rewrite !(expand_tabs_none _ pre Hpre).
      rewrite (expand_tabs_none _ (repeat _ _) (spaces_no_tab _)).
      reflexivity.
    + rewrite !count_occ_app in *. cbn [count_occ] in Hn.
      destruct (ascii_dec tab tab) as [_|K]; [|congruence].
      rewrite (proj1 (count_occ_not_In ascii_dec _ _) (spaces_no_tab _)).
      lia.
    + lia.
  - apply find_from_char_None in E.
    rewrite expand_tabs_none by exact E. reflexivity.
Qed.

(** [TabsToSpaces] with a tab size that is not negative returns, within
    [size + 1] iterations, the string with every tab replaced by that many
    spaces, so no tab is left; with a negative tab size it throws as soon
    as the string has a tab; a string without tabs comes back as it is
    whatever the tab size. *)
Theorem TabsToSpaces_spec (s : str) (tab_size : Z) (fuel : nat) :
  length s < fuel ->
  ((0 <= tab_size)%Z ->
   TabsToSpaces fuel tab_size s
   = Returned (Text.expand_tabs (Z.to_nat tab_size) s) /\
   ~ In tab (Text.expand_tabs (Z.to_nat tab_size) s)) /\
  ((tab_size < 0)%Z -> In tab s -> TabsToSpaces fuel tab_size s = Threw) /\
  (~ In tab s -> TabsToSpaces fuel tab_size s = Returned s).
Proof.
  intro Hf.
  pose proof (find_after [] s [tab]) as Hfind. cbn [app length] in Hfind.
  split; [|split].
  - intro Hts. split; [|apply expand_tabs_no_tab].
    apply (TabsToSpaces_expand tab_size (S (length s))); [exact Hts | | lia].
    pose proof (count_occ_bound ascii_dec tab s). lia.
  - intros Hts Hin. destruct fuel as [|fuel]; [lia|].
    cbn [TabsToSpaces]. rewrite Hfind.
    destruct (find_from [tab] s 0) eqn:E.
    + replace (tab_size <? 0)%Z with true
        by (symmetry; apply Z.ltb_lt; lia).
      reflexivity.
    + apply find_from_char_None in E. contradiction.
  - intro Hno. destruct fuel as [|fuel]; [lia|].
    cbn [TabsToSpaces]. rewrite Hfind.
    rewrite (proj2 (find_from_char_None tab s 0) Hno). reflexivity.
Qed.

Lemma TabsToSpaces_spec_witness :
  TabsToSpaces 5 4 Text.tabbed = Returned (Text.expand_tabs 4 Text.tabbed) /\
  TabsToSpaces 5 (-1) Text.tabbed = Threw /\
  TabsToSpaces 6 (-1) Text.hello = Returned Text.hello.
Proof.
  assert (H4 : length Text.tabbed < 5) by (cbn; lia).
  assert (H5 : length Text.hello < 6) by (cbn; lia).
  split; [|split].
  - apply (proj1 (TabsToSpaces_spec Text.tabbed 4 5 H4)). lia.
  - apply (proj1 (proj2 (TabsToSpaces_spec Text.tabbed (-1) 5 H4))); [lia|].
    cbn. right. left. reflexivity.
  - apply (proj2 (proj2 (TabsToSpaces_spec Text.hello (-1) 6 H5))).
    intro H. cbn in H. repeat (destruct H as [H|H]; [discriminate|]).
    exact H.
Defined.

Lemma starts_with_length (pat s : str) :
  starts_with pat s = true -> length pat <= length s.
Proof.
  revert s. induction pat as [|c pat IH]; intros s H; [cbn; lia|].
  destruct s as [|d s]; [discriminate|].
  cbn [starts_with] in H. apply andb_true_iff in H. destruct H as [_ H].
  apply IH in H. cbn [length]. lia.
Qed.

Lemma find_from_bounds (pat s : str) (i p : nat) :
  find_from pat s i = Some p -> i <= p /\ p + length pat <= i + length s.
Proof.
  revert i. induction s as [|d s IH]; intros i H; cbn [find_from] in H.
  - destruct (starts_with pat []) eqn:E; [|discriminate].
    injection H as <-. apply starts_with_length in E. lia.
  - destruct (starts_with pat (d :: s)) eqn:E.
    + injection H as <-. apply starts_with_length in E. lia.
    + apply IH in H. cbn [length]. lia.
Qed.

Lemma find_bounds (s pat : str) (pos p : nat) :
  find s pat pos = Some p -> pos <= p /\ p + length pat <= length s.
Proof.
  unfold find. destruct (Nat.ltb_spec (length s) pos) as [H|H];
    [discriminate|].
  intro K. apply find_from_bounds in K. rewrite length_skipn in K. lia.
Qed.

Lemma replace_length (s dest : str) (p n : nat) :
  p + n <= length s ->
  length (replace s p n dest) = p + length dest + (length s - (p + n)).
Proof.
  intro H. unfold replace.
  rewrite !length_app, length_firstn, length_skipn. lia.
Qed.

(** With a pattern that is not empty, the loop of [ReplaceAll] ends: each
    replacement leaves less of the string behind the position. *)
Lemma ReplaceAll_loop_ends (src dest : str) (n : nat) :
  src <> [] ->
  forall (result : str) (pos : nat),
    length result - pos < n ->
    exists r, forall fuel,
        n <= fuel -> ReplaceAll_loop fuel result src dest pos = Some r.
Proof.
  intro Hsrc. assert (Hlen : 1 <= length src).
  { destruct src; [congruence | cbn; lia]. }
  induction n as [|n IH]; intros result pos Hn; [lia|].
  destruct (find result src pos) as [p|] eqn:E.
  - destruct (find_bounds _ _ _ _ E) as [Hp Hq].
    destruct (IH (replace result p (length src) dest) (p + length dest))
      as (r & Hr).
    + rewrite replace_length by exact Hq. lia.
    + exists r. intros fuel Hf. destruct fuel as [|fuel]; [lia|].
      cbn [ReplaceAll_loop]. rewrite E. apply Hr. lia.
  - exists result. intros fuel Hf. destruct fuel as [|fuel]; [lia|].
    cbn [ReplaceAll_loop]. rewrite E. reflexivity.
Qed.

(** [ReplaceAll] with a pattern that is not empty returns, and within
    [size + 1] iterations of its loop: more iterations allowed change
    nothing.  When the pattern does not occur the string comes back as it
    is. *)
Theorem ReplaceAll_terminates (result src dest : str) :
  src <> [] ->
  exists r,
    (forall fuel, length result < fuel ->
                  ReplaceAll fuel result src dest = Some r) /\
    (find result src 0 = None -> r = result).
Proof.
  intro Hsrc. unfold ReplaceAll.
  destruct (str_eq_dec src dest) as [E|E].
  - exists result. split; reflexivity.
  - destruct (ReplaceAll_loop_ends src dest (S (length result)) Hsrc result 0)
      as (r & Hr); [lia|].
    exists r. split.
    + intros fuel Hf. apply Hr. lia.
    + intro Hnone. specialize (Hr (S (length result)) (Nat.le_refl _)).
      cbn [ReplaceAll_loop] in Hr. rewrite Hnone in Hr. congruence.
Qed.

Lemma ReplaceAll_terminates_witness :
  exists r,
    (forall fuel, length Text.dos_path < fuel ->
                  ReplaceAll fuel Text.dos_path Text.hello [Text.slash]
                  = Some r) /\
    r = Text.dos_path.
Proof.
  destruct (ReplaceAll_terminates Text.dos_path Text.hello [Text.slash])
    as (r & Hr & Hsame); [discriminate|].
  exists r. split; [exact Hr | apply Hsame; reflexivity].
Defined.

Lemma ReplaceAll_loop_empty_src (dest : str) (fuel : nat) :
  dest <> [] ->
  forall (result : str) (pos : nat),
    pos <= length result ->
    ReplaceAll_loop fuel result [] dest pos = None.
Proof.
  intro Hd. induction fuel as [|fuel IH]; intros result pos Hp;
    [reflexivity|].
  cbn [ReplaceAll_loop].
  assert (Hfind : find result [] pos = Some pos).
  { unfold find.
    replace (length result <? pos) with false
      by (symmetry; apply Nat.ltb_ge; exact Hp).
    destruct (skipn pos result); reflexivity. }
  rewrite Hfind. apply IH.
  unfold replace. rewrite !length_app, length_firstn, length_skipn.
  cbn [length]. lia.
Qed.

(** [ReplaceAll] with an empty pattern and a replacement that is not empty
    does not return: the empty pattern is found at every position, each
    insertion moves the position on by the inserted length and the string
    grows as fast, so no number of iterations ends the loop.  With both
    empty the string comes back at once. *)
Theorem ReplaceAll_empty_pattern (result dest : str) (fuel : nat) :
  (dest <> [] -> ReplaceAll fuel result [] dest = None) /\
  ReplaceAll fuel result [] [] = Some result.
Proof.
  split; [|reflexivity].
  intro Hd. unfold ReplaceAll.
  destruct (str_eq_dec [] dest) as [E|E]; [congruence|].
  apply ReplaceAll_loop_empty_src; [exact Hd | lia].
Qed.

Lemma ReplaceAll_empty_pattern_witness :
  ReplaceAll 1000 Text.hello [] [Text.slash] = None.
Proof.
  apply (proj1 (ReplaceAll_empty_pattern Text.hello [Text.slash] 1000)).
  discriminate.
Defined.

Lemma map_swap_none (c d : ascii) (s : str) :
  ~ In c s -> map (fun x => if Ascii.eqb x c then d else x) s = s.
Proof.
  intro H. induction s as [|x s IH]; [reflexivity|].
  cbn [map]. destruct (Ascii.eqb_spec x c) as [E|E].
  - exfalso. apply H. left. congruence.
  - f_equal. apply IH. intro K. apply H. right. exact K.
Qed.

Lemma ReplaceAll_loop_char (c d : ascii) (n : nat) :
  forall (rest done : str) (fuel : nat),
    length rest < n -> n <= fuel ->
    ReplaceAll_loop fuel (done ++ rest) [c] [d] (length done)
    = Some (done ++ map (fun x => if Ascii.eqb x c then d else x) rest).
Proof.
  induction n as [|n IH]; intros rest done fuel Hn Hf; [lia|].
  destruct fuel as [|fuel]; [lia|].
  cbn [ReplaceAll_loop]. rewrite find_after.
  destruct (find_from [c] rest (length done)) as [p|] eqn:E.
  - destruct (find_from_char_Some _ _ _ _ E) as (pre & post & Hs & Hpre & Hp).
    subst rest p.
    pose proof (replace_at (done ++ pre) [c] post [d]) as Hr.
    rewrite length_app in Hr. cbn [length] in Hr.
    rewrite <- app_assoc in Hr. cbn [app] in Hr.
    cbn [length]. rewrite Hr.
    pose proof (IH post ((done ++ pre) ++ [d]) fuel) as K.
    rewrite !length_app in K. cbn [length] in K.
    rewrite <- !app_assoc in K. cbn [app] in K.
    rewrite <- app_assoc. cbn [app].
    rewrite K.
    + rewrite map_app. cbn [map]. rewrite Ascii.eqb_refl.
      rewrite (map_swap_none c d pre Hpre). reflexivity.
    + rewrite length_app in Hn. cbn [length] in Hn. lia.
    + lia.
  - apply find_from_char_None in E.
    rewrite (map_swap_none c d rest E). reflexivity.
Qed.

(** Replacing one character by another with [ReplaceAll] changes exactly
    the occurrences of that character, each in its place. *)
Theorem ReplaceAll_char (s : str) (c d : ascii) (fuel : nat) :
  length s < fuel ->
  ReplaceAll fuel s [c] [d]
  = Some (map (fun x => if Ascii.eqb x c then d else x) s).
Proof.
  intro Hf. unfold ReplaceAll.
  destruct (str_eq_dec [c] [d]) as [E|E].
  - injection E as <-. f_equal. rewrite <- (map_id s) at 1.
    apply map_ext. intro x.
    destruct (Ascii.eqb_spec x c); congruence.
  - apply (ReplaceAll_loop_char c d (S (length s)) s [] fuel); lia.
Qed.

Lemma ReplaceAll_char_witness :
  ReplaceAll 12 Text.dos_path ["\"%char] [Text.slash]
  = Some (map (fun x => if Ascii.eqb x "\"%char then Text.slash else x)
              Text.dos_path).
Proof.
  apply (ReplaceAll_char Text.dos_path "\"%char Text.slash 12).
  cbn. lia.
Defined.

Lemma StripQuotes_spec_witness :
  StripQuotes (quote :: Text.hello ++ [quote]) = Text.hello /\
  StripQuotes Text.hello = Text.hello.
Proof.
  destruct StripQuotes_spec as (Hq & _ & Hs).
  split.
  - apply Hq. unfold Text.fits. cbn. lia.
  - apply Hs. left. discriminate.
Defined.

Lemma StripSpaces_spec_witness :
  StripSpaces Text.padded_hello = Text.hello /\
  exists pre post,
    Text.padded_hello = pre ++ StripSpaces Text.padded_hello ++ post /\
    Text.all_in whitespace pre /\ Text.all_in whitespace post.
Proof.
  split; [reflexivity|].
  apply (StripSpaces_spec Text.padded_hello).
  unfold Text.fits. cbn. lia.
Defined.

Lemma StripSpaces_idempotent_witness :
  StripSpaces (StripSpaces Text.padded_hello) = StripSpaces Text.padded_hello.
Proof.
  apply (StripSpaces_idempotent Text.padded_hello).
  unfold Text.fits. cbn. lia.
Defined.

End StringSpec.
